(** * petl.transform.reductions: grouping, aggregation, merging and folding

    A shallow embedding of [petl/transform/reductions.py] and of the
    properties its specification states about it. *)

From Stdlib Require Import ZArith List String Ascii Bool Lia Arith.
From Stdlib Require Import Sorting.Sorted Sorting.Permutation.
Import ListNotations.

Set Warnings "-register-all".

Local Open Scope Z_scope.
Local Open Scope string_scope.
Local Open Scope list_scope.

(* ================================================================== *)
(** ** Python values held in table cells *)

(** The values a cell can hold: [None], integers, text, tuples, lists and
    frozensets.  [Conflict] is a subclass of [frozenset]; a frozenset is
    represented by the strictly increasing list of its members (see
    [Conflict] below), so that equality of sets is equality of
    representations. *)
Inductive value : Type :=
| VNone
| VInt (z : Z)
| VStr (s : string)
| VTuple (items : list value)
| VList (items : list value)
| VConflict (members : list value).

Section ValueInd.
Variable P : value -> Prop.
Hypothesis HNone : P VNone.
Hypothesis HInt : forall z, P (VInt z).
Hypothesis HStr : forall s, P (VStr s).
Hypothesis HTuple : forall l, Forall P l -> P (VTuple l).
Hypothesis HList : forall l, Forall P l -> P (VList l).
Hypothesis HConflict : forall l, Forall P l -> P (VConflict l).

Fixpoint value_nested_ind (v : value) : P v :=
  let all := fix all (l : list value) : Forall P l :=
    match l with
    | [] => Forall_nil P
    | x :: l' => Forall_cons x (value_nested_ind x) (all l')
    end in
  match v with
  | VNone => HNone
  | VInt z => HInt z
  | VStr s => HStr s
  | VTuple l => HTuple l (all l)
  | VList l => HList l (all l)
  | VConflict l => HConflict l (all l)
  end.
End ValueInd.

(** Lexicographic comparison of two sequences. *)
Section Lex.
Context {A : Type} (cmp : A -> A -> comparison).

Fixpoint lex (l1 l2 : list A) : comparison :=
  match l1, l2 with
  | [], [] => Eq
  | [], _ :: _ => Lt
  | _ :: _, [] => Gt
  | x :: l1', y :: l2' =>
      match cmp x y with
      | Eq => lex l1' l2'
      | c => c
      end
  end.
End Lex.

Definition rank (v : value) : nat :=
  match v with
  | VNone => 0
  | VInt _ => 1
  | VStr _ => 2
  | VTuple _ => 3
  | VList _ => 4
  | VConflict _ => 5
  end%nat.

(** A total order on values, used where the library needs one: by the sort
    step and to lay out the members of a frozenset. *)
Fixpoint value_compare (a b : value) {struct a} : comparison :=
  match a, b with
  | VInt x, VInt y => Z.compare x y
  | VStr x, VStr y => String.compare x y
  | VTuple x, VTuple y => lex value_compare x y
  | VList x, VList y => lex value_compare x y
  | VConflict x, VConflict y => lex value_compare x y
  | _, _ => Nat.compare (rank a) (rank b)
  end.

(** Python's [==] on cell values. *)
Definition py_eq (a b : value) : bool :=
  match value_compare a b with Eq => true | _ => false end.

Definition value_leb (a b : value) : bool :=
  match value_compare a b with Gt => false | _ => true end.

Fixpoint hashable (v : value) : bool :=
  match v with
  | VList _ => false
  | VTuple l => forallb hashable l
  | VConflict l => forallb hashable l
  | _ => true
  end.

Definition inb (v : value) (l : list value) : bool := existsb (py_eq v) l.

(** The distinct members of a sequence, in order of first appearance. *)
Fixpoint distinct_values (seen l : list value) : list value :=
  match l with
  | [] => []
  | x :: l' =>
      if inb x seen then distinct_values seen l'
      else x :: distinct_values (x :: seen) l'
  end.

(* ================================================================== *)
(** ** Exceptions, results and generators *)

Inductive exn : Type :=
| TypeError
| ValueError
| KeyError
| IndexError
| FieldSelectionError (field : string)
| Exception (msg : string).

Inductive result (A : Type) : Type :=
| Ok (a : A)
| Raise (e : exn).
Arguments Ok {A} a.
Arguments Raise {A} e.

Definition bind {A B} (r : result A) (k : A -> result B) : result B :=
  match r with
  | Ok a => k a
  | Raise e => Raise e
  end.

Notation "x <- r ;; k" := (bind r (fun x => k))
  (at level 61, r at next level, right associativity).

Fixpoint mapM {A B} (f : A -> result B) (l : list A) : result (list B) :=
  match l with
  | [] => Ok []
  | x :: l' => y <- f x ;; ys <- mapM f l' ;; Ok (y :: ys)
  end.

(** What a generator has yielded when it stops, and the exception that
    stopped it, if any. *)
Record stream (A : Type) : Type := Stream {
  yielded : list A;
  raised : option exn
}.
Arguments Stream {A} _ _.
Arguments yielded {A} _.
Arguments raised {A} _.

Definition cons_yield {A} (a : A) (s : stream A) : stream A :=
  Stream (a :: yielded s) (raised s).

(** [for x in l: yield f(x)] *)
Fixpoint yield_each {A B} (f : A -> result B) (l : list A) : stream B :=
  match l with
  | [] => Stream [] None
  | x :: l' =>
      match f x with
      | Ok y => cons_yield y (yield_each f l')
      | Raise e => Stream [] (Some e)
      end
  end.

(** [for x in r: yield f(x)], where obtaining [r] itself may raise. *)
Definition yield_from {A B} (r : result (list A)) (f : A -> result B)
  : stream B :=
  match r with
  | Ok l => yield_each f l
  | Raise e => Stream [] (Some e)
  end.

(* ================================================================== *)
(** ** Tables *)

Definition row := list value.

(** A row sequence: the header (field names, as text) and the data rows. *)
Record table : Type := Table {
  header : list string;
  body : list row
}.

(** What iterating a view produces: an exception before anything is
    yielded, or the header followed by the data rows yielded. *)
Inductive output : Type :=
| Fail (e : exn)
| Emit (hdr : list string) (rows : stream row).

Definition streq (a b : string) : bool := String.eqb a b.

(** [flds.index(f)] *)
Fixpoint index (flds : list string) (f : string) : result nat :=
  match flds with
  | [] => Raise ValueError
  | g :: flds' =>
      if streq g f then Ok O
      else i <- index flds' f ;; Ok (S i)
  end.

(** [f in flds] *)
Definition contains (flds : list string) (f : string) : bool :=
  existsb (streq f) flds.

(* ================================================================== *)
(** ** Collaborators from [petl.util.base] and [petl.transform.sorts] *)

(** A key specification: a field name, a tuple of field names, or a
    callable deriving the key from a row. *)
Inductive keyspec : Type :=
| KeyField (f : string)
| KeyFields (fs : list string)
| KeyCallable (g : row -> value).

(** A value specification: unset (whole rows), a field name, or a tuple of
    field names. *)
Inductive valspec : Type :=
| WholeRow
| ValField (f : string)
| ValFields (fs : list string).

(** Modelled from the spec: indexing a row by position, which
    [petl.util.base] is missing from the sources.  Spec 3: shorter rows are
    conceptually padded with a missing sentinel (the null-like default) when
    fields are indexed beyond their length. *)
Definition getitem (r : row) (i : nat) : value := nth i r VNone.

(** Modelled from the spec: resolving a field name against the header, which
    [petl.util.base] is missing from the sources.  Spec 4.1: a key field
    not present among header names is a configuration error surfaced at
    iteration time. *)
Definition field_index (hdr : list string) (f : string) : result nat :=
  match index hdr f with
  | Ok i => Ok i
  | Raise _ => Raise (FieldSelectionError f)
  end.

(** Modelled from the spec: the key extracted from a row, missing from
    the sources with [rowgroupby] and [sort].  Spec 3: a single field's
    value, the tuple of the fields' values for a compound key (compared
    element-wise as tuples), or what the callable derives. *)
Definition keygetter (hdr : list string) (key : keyspec)
  : result (row -> value) :=
  match key with
  | KeyField f => i <- field_index hdr f ;; Ok (fun r => getitem r i)
  | KeyFields fs =>
      idxs <- mapM (field_index hdr) fs ;;
      Ok (fun r => VTuple (map (getitem r) idxs))
  | KeyCallable g => Ok g
  end.

(** Modelled from the spec: the projection a value specification asks for,
    missing from the sources with [rowgroupby].  Spec 3 and 4.1: full rows,
    or the extracted value, or the tuple of the extracted values. *)
Definition valgetter (hdr : list string) (vspec : valspec)
  : result (row -> value) :=
  match vspec with
  | WholeRow => Ok (fun r => VTuple r)
  | ValField f => i <- field_index hdr f ;; Ok (fun r => getitem r i)
  | ValFields fs =>
      idxs <- mapM (field_index hdr) fs ;;
      Ok (fun r => VTuple (map (getitem r) idxs))
  end.

(** Modelled from the spec: the partition of a sequence into its maximal
    runs of consecutive items with equal keys ([itertools.groupby], behind
    [rowgroupby]).  Spec 3, Group: a maximal contiguous run of rows sharing
    an identical key value, identical by value equality of the extracted
    key; each run is reported with the key of its first row. *)
Fixpoint groupby {A : Type} (getkey : A -> value) (l : list A)
  : list (value * list A) :=
  match l with
  | [] => []
  | x :: l' =>
      match groupby getkey l' with
      | (k, g) :: rest =>
          if py_eq (getkey x) k then (getkey x, x :: g) :: rest
          else (getkey x, [x]) :: (k, g) :: rest
      | [] => [(getkey x, [x])]
      end
  end.

(** Modelled from the spec: [rowgroupby(table, key, value)] of
    [petl.util.base], missing from the sources.  Spec 4.1: the sequence of
    (key, group) pairs, one per maximal run of equal consecutive keys, the
    group holding full rows or extracted values in encounter order; it only
    detects boundaries, it does not sort; an empty input yields no pair. *)
Definition rowgroupby (t : table) (key : keyspec) (vspec : valspec)
  : result (list (value * list value)) :=
  getkey <- keygetter (header t) key ;;
  getval <- valgetter (header t) vspec ;;
  Ok (map (fun kg => (fst kg, map getval (snd kg)))
          (groupby getkey (body t))).

(** Insertion of a row before the first row whose key is not smaller. *)
Fixpoint insert_row (getkey : row -> value) (x : row) (l : list row)
  : list row :=
  match l with
  | [] => [x]
  | y :: l' =>
      if value_leb (getkey x) (getkey y) then x :: y :: l'
      else y :: insert_row getkey x l'
  end.

Definition sort_rows (getkey : row -> value) (l : list row) : list row :=
  fold_right (insert_row getkey) [] l.

(** Modelled from the spec: [sort(table, key)] of [petl.transform.sorts],
    missing from the sources.  Spec 1 and 6: a black box yielding the same
    header and the rows in key order; here a stable sort under
    [value_compare] of the keys [keygetter] extracts. *)
Definition sort (t : table) (key : keyspec) : result table :=
  getkey <- keygetter (header t) key ;;
  Ok (Table (header t) (sort_rows getkey (body t))).

(** The source a view holds: the table as given, or the lazy view
    [sort(table, key)], which sorts when it is iterated. *)
Inductive source : Type :=
| Given (t : table)
| SortView (t : table) (key : keyspec).

Definition iter_source (s : source) : result table :=
  match s with
  | Given t => Ok t
  | SortView t key => sort t key
  end.

(** [if presorted: source else: sort(source, key, ...)] *)
Definition sorted_unless (presorted : bool) (t : table) (key : keyspec)
  : source :=
  if presorted then Given t else SortView t key.

(** [rowgroupby] applied to the source a view holds: the source is iterated
    (and so sorted, when it is a sort view) first. *)
Definition rowgroupby_source (s : source) (key : keyspec) (vspec : valspec)
  : result (list (value * list value)) :=
  t <- iter_source s ;; rowgroupby t key vspec.

(** Modelled from the spec: [iterpeek] of [petl.util.base], missing from the
    sources.  Spec 9: reads one item ahead (the header), exposes it, and
    replays it as the first item of a freshly constructed sequence. *)
Definition iterpeek (s : source) : result (list string * source) :=
  t <- iter_source s ;; Ok (header t, Given t).

(** The cells of a row handed over as a value. *)
Definition cells (r : value) : row :=
  match r with
  | VTuple l => l
  | VList l => l
  | _ => []
  end.

(* ================================================================== *)
(** ** rowreduce *)

Definition reducer_fn : Type := value -> list value -> result row.

Record RowReduceView : Type := mkRowReduceView {
  rr_source : source;
  rr_key : keyspec;
  rr_fields : option (list string);
  rr_reducer : reducer_fn
}.

Definition RowReduceView_init (src : table) (key : keyspec)
    (reducer : reducer_fn) (fields : option (list string))
    (presorted : bool) : RowReduceView :=
  mkRowReduceView (sorted_unless presorted src key) key fields reducer.

Definition rowreduce := RowReduceView_init.

Definition iterrowreduce (src : source) (key : keyspec)
    (reducer : reducer_fn) (fields : option (list string)) : output :=
  match fields with
  | None =>
      (* output fields from source *)
      match iterpeek src with
      | Raise e => Fail e
      | Ok (flds, src') =>
          Emit flds
            (yield_from (rowgroupby_source src' key WholeRow)
               (fun kg => reducer (fst kg) (snd kg)))
      end
  | Some flds =>
      Emit flds
        (yield_from (rowgroupby_source src key WholeRow)
           (fun kg => reducer (fst kg) (snd kg)))
  end.

Definition RowReduceView_iter (v : RowReduceView) : output :=
  iterrowreduce (rr_source v) (rr_key v) (rr_reducer v) (rr_fields v).

(* ================================================================== *)
(** ** fold *)

Definition binary_fn : Type := value -> value -> result value.

(** [functools.reduce(f, iterable)] with no initial value. *)
Fixpoint reduce_from (f : binary_fn) (acc : value) (l : list value)
  : result value :=
  match l with
  | [] => Ok acc
  | x :: l' => acc' <- f acc x ;; reduce_from f acc' l'
  end.

Definition reduce (f : binary_fn) (l : list value) : result value :=
  match l with
  | [] => Raise TypeError
  | x :: l' => reduce_from f x l'
  end.

Record FoldView : Type := mkFoldView {
  fv_table : source;
  fv_key : keyspec;
  fv_f : binary_fn;
  fv_value : valspec
}.

Definition FoldView_init (tbl : table) (key : keyspec) (f : binary_fn)
    (vspec : valspec) (presorted : bool) : FoldView :=
  mkFoldView (sorted_unless presorted tbl key) key f vspec.

Definition fold := FoldView_init.

Definition iterfold (tbl : source) (key : keyspec) (f : binary_fn)
    (vspec : valspec) : output :=
  Emit ["key"; "value"]
    (yield_from (rowgroupby_source tbl key vspec)
       (fun kg => v <- reduce f (snd kg) ;; Ok [fst kg; v])).

Definition FoldView_iter (v : FoldView) : output :=
  iterfold (fv_table v) (fv_key v) (fv_f v) (fv_value v).

(* ================================================================== *)
(** ** mergeduplicates and Conflict *)

(** Insertion of a member into the representation of a frozenset. *)
Fixpoint set_insert (x : value) (l : list value) : list value :=
  match l with
  | [] => [x]
  | y :: l' =>
      match value_compare x y with
      | Lt => x :: y :: l'
      | Eq => y :: l'
      | Gt => y :: set_insert x l'
      end
  end.

Definition frozenset_of (items : list value) : list value :=
  fold_right set_insert [] items.

(** [class Conflict(frozenset)]: [Conflict(items)] builds the frozenset of
    the items, which must be hashable. *)
Definition Conflict (items : list value) : result value :=
  if forallb hashable items then Ok (VConflict (frozenset_of items))
  else Raise TypeError.

(** [set(iterable)]: the distinct items; the items must be hashable. *)
Definition pyset (items : list value) : result (list value) :=
  if forallb hashable items then Ok (distinct_values [] items)
  else Raise TypeError.

(** [list(k)] *)
Definition py_list (v : value) : result (list value) :=
  match v with
  | VTuple l => Ok l
  | VList l => Ok l
  | VConflict l => Ok l
  | VStr s =>
      Ok (map (fun c => VStr (String c EmptyString))
              (list_ascii_of_string s))
  | _ => Raise TypeError
  end.

(** [list(key)] for a key specification. *)
Definition key_fields (key : keyspec) : result (list string) :=
  match key with
  | KeyField f => Ok [f]
  | KeyFields fs => Ok fs
  | KeyCallable _ => Raise TypeError
  end.

(** [[k]] for a field-name key, [list(k)] otherwise. *)
Definition key_cells (key : keyspec) (k : value) : result row :=
  match key with
  | KeyField _ => Ok [k]
  | _ => py_list k
  end.

(** [set(row[i] for row in grp if len(row) > i and row[i] != missing)] *)
Definition merged_values (missing : value) (grp : list value) (i : nat)
  : result (list value) :=
  pyset
    (map (fun r => getitem (cells r) i)
       (filter
          (fun r => (i <? List.length (cells r))%nat
                    && negb (py_eq (getitem (cells r) i) missing))
          grp)).

(** [vals.pop()] *)
Definition set_pop (vals : list value) : result value :=
  match vals with
  | v :: _ => Ok v
  | [] => Raise KeyError
  end.

(** [vals.pop() if len(vals) == 1 else missing if len(vals) == 0
     else Conflict(vals)] *)
Definition normed_value (missing : value) (vals : list value)
  : result value :=
  if (List.length vals =? 1)%nat then set_pop vals
  else if (List.length vals =? 0)%nat then Ok missing
  else Conflict vals.

Definition merge_group (key : keyspec) (missing : value)
    (valfldidxs : list nat) (kg : value * list value) : result row :=
  let grp := snd kg in
  outrow <- key_cells key (fst kg) ;;
  mergedvals <- mapM (merged_values missing grp) valfldidxs ;;
  normedvals <- mapM (normed_value missing) mergedvals ;;
  Ok (outrow ++ normedvals).

Definition itermergeduplicates (tbl : source) (key : keyspec)
    (missing : value) : output :=
  match iterpeek tbl with
  | Raise e => Fail e
  | Ok (flds, it) =>
      (* determine output fields *)
      match key_fields key with
      | Raise e => Fail e
      | Ok outflds =>
          let keyflds := outflds in
          let valflds := filter (fun f => negb (contains keyflds f)) flds in
          match mapM (index flds) valflds with
          | Raise e => Fail e
          | Ok valfldidxs =>
              Emit (outflds ++ valflds)
                (* do the work *)
                (yield_from (rowgroupby_source it key WholeRow)
                   (merge_group key missing valfldidxs))
          end
      end
  end.

Record MergeDuplicatesView : Type := mkMergeDuplicatesView {
  md_table : source;
  md_key : keyspec;
  md_missing : value
}.

Definition MergeDuplicatesView_init (tbl : table) (key : keyspec)
    (missing : value) (presorted : bool) : MergeDuplicatesView :=
  mkMergeDuplicatesView (sorted_unless presorted tbl key) key missing.

Definition mergeduplicates := MergeDuplicatesView_init.

Definition MergeDuplicatesView_iter (v : MergeDuplicatesView) : output :=
  itermergeduplicates (md_table v) (md_key v) (md_missing v).

(** The table a fully iterated view amounts to, when it is passed on as
    the input of another transform. *)
Definition as_table (o : output) : option table :=
  match o with
  | Emit hdr (Stream rows None) => Some (Table hdr rows)
  | _ => None
  end.

(* ================================================================== *)
(** ** aggregate *)

(** What an aggregation function is handed: a list, or an iterator (a
    generator or a group of [rowgroupby]) over the same items. *)
Inductive iterable : Type :=
| PyList (items : list value)
| PyIter (items : list value).

Definition contents (g : iterable) : list value :=
  match g with
  | PyList l => l
  | PyIter l => l
  end.

(** Callables: the built-ins [len] and [list], and any other function. *)
Inductive callable : Type :=
| builtin_len
| builtin_list
| Lambda (f : iterable -> result value).

Definition call (c : callable) (arg : iterable) : result value :=
  match c with
  | builtin_len =>
      match arg with
      | PyList l => Ok (VInt (Z.of_nat (List.length l)))
      | PyIter _ => Raise TypeError
      end
  | builtin_list => Ok (VList (contents arg))
  | Lambda f => f arg
  end.

(** [aggregation == len] *)
Definition is_len (c : callable) : bool :=
  match c with
  | builtin_len => true
  | _ => false
  end.

(** [sum(...)] of integers. *)
Definition py_sum (l : list Z) : Z := fold_left Z.add l 0.

(** [lambda g: sum(1 for _ in g)] *)
Definition count_pass : callable :=
  Lambda (fun g => Ok (VInt (py_sum (map (fun _ => 1) (contents g))))).

Definition itersimpleaggregate (tbl : source) (key : keyspec)
    (aggregation : callable) (vspec : valspec) : output :=
  (* special case counting *)
  let aggregation := if is_len aggregation then count_pass else aggregation in
  (* determine output header *)
  let outhdr :=
    match key with
    | KeyFields fs => fs ++ ["value"]
    | KeyCallable _ => ["key"; "value"]
    | KeyField f => [f; "value"]
    end in
  Emit outhdr
    (* generate data *)
    match key with
    | KeyFields _ =>
        yield_from (rowgroupby_source tbl key vspec)
          (fun kg =>
             k <- py_list (fst kg) ;;
             a <- call aggregation (PyIter (snd kg)) ;;
             Ok (k ++ [a]))
    | _ =>
        yield_from (rowgroupby_source tbl key vspec)
          (fun kg =>
             a <- call aggregation (PyIter (snd kg)) ;;
             Ok [fst kg; a])
    end.

Record SimpleAggregateView : Type := mkSimpleAggregateView {
  sa_table : source;
  sa_key : keyspec;
  sa_aggregation : callable;
  sa_value : valspec
}.

Definition SimpleAggregateView_init (tbl : table) (key : keyspec)
    (aggregation : callable) (vspec : valspec) (presorted : bool)
  : SimpleAggregateView :=
  mkSimpleAggregateView (sorted_unless presorted tbl key) key aggregation
    vspec.

Definition SimpleAggregateView_iter (v : SimpleAggregateView) : output :=
  itersimpleaggregate (sa_table v) (sa_key v) (sa_aggregation v)
    (sa_value v).

(** The objects an aggregation argument or descriptor can be.  The keys of
    a dict are output field names, which are text. *)
Inductive pyobj : Type :=
| PNone
| PInt (z : Z)
| PStr (s : string)
| PCallable (c : callable)
| PTuple (items : list pyobj)
| PList (items : list pyobj)
| PDict (entries : list (string * pyobj)).

Definition is_callable (o : pyobj) : bool :=
  match o with PCallable _ => true | _ => false end.

Definition is_string (o : pyobj) : bool :=
  match o with PStr _ => true | _ => false end.

Definition is_none (o : pyobj) : bool :=
  match o with PNone => true | _ => false end.

(** [isinstance(o, (list, tuple))] *)
Definition is_list_or_tuple (o : pyobj) : bool :=
  match o with PTuple _ | PList _ => true | _ => false end.

Definition is_dict (o : pyobj) : bool :=
  match o with PDict _ => true | _ => false end.

(** [len(o)] *)
Definition py_len (o : pyobj) : result nat :=
  match o with
  | PStr s => Ok (String.length s)
  | PTuple l => Ok (List.length l)
  | PList l => Ok (List.length l)
  | PDict d => Ok (List.length d)
  | _ => Raise TypeError
  end.

(** [o[0]] *)
Definition first_item (o : pyobj) : result pyobj :=
  match o with
  | PTuple (x :: _) => Ok x
  | PList (x :: _) => Ok x
  | PStr (String c _) => Ok (PStr (String c EmptyString))
  | PTuple [] => Raise IndexError
  | PList [] => Raise IndexError
  | PStr EmptyString => Raise IndexError
  | PDict _ => Raise KeyError
  | _ => Raise TypeError
  end.

(** [o[1:]] *)
Definition rest_items (o : pyobj) : result pyobj :=
  match o with
  | PTuple l => Ok (PTuple (tl l))
  | PList l => Ok (PList (tl l))
  | PStr (String _ s) => Ok (PStr s)
  | PStr EmptyString => Ok (PStr EmptyString)
  | _ => Raise TypeError
  end.

(** An ordered dict from output field names to descriptors. *)
Definition odict : Type := list (string * pyobj).

(** [d[k] = v]: replaces the value where the key is, appends otherwise. *)
Fixpoint od_set (d : odict) (k : string) (v : pyobj) : odict :=
  match d with
  | [] => [(k, v)]
  | (k', v') :: d' =>
      if streq k' k then (k', v) :: d' else (k', v') :: od_set d' k v
  end.

Record MultiAggregateView : Type := mkMultiAggregateView {
  ma_source : source;
  ma_key : keyspec;
  ma_aggregation : odict
}.

(** [for t in aggregation: self.aggregation[t[0]] = t[1:]] *)
Fixpoint collect_descriptors (d : odict) (ts : list pyobj) : result odict :=
  match ts with
  | [] => Ok d
  | t :: ts' =>
      agg <- rest_items t ;;
      name <- first_item t ;;
      match name with
      | PStr outfld => collect_descriptors (od_set d outfld agg) ts'
      | _ => Raise TypeError
      end
  end.

Definition MultiAggregateView_init (src : table) (key : keyspec)
    (aggregation : pyobj) (presorted : bool) : result MultiAggregateView :=
  let source := sorted_unless presorted src key in
  match aggregation with
  | PNone => Ok (mkMultiAggregateView source key [])
  | PList ts | PTuple ts =>
      d <- collect_descriptors [] ts ;;
      Ok (mkMultiAggregateView source key d)
  | PDict d => Ok (mkMultiAggregateView source key d)
  | _ => Raise (Exception "expected aggregation is None, list, tuple or dict")
  end.

(** [view[key] = value] *)
Definition MultiAggregateView_setitem (v : MultiAggregateView)
    (k : string) (agg : pyobj) : MultiAggregateView :=
  mkMultiAggregateView (ma_source v) (ma_key v)
    (od_set (ma_aggregation v) k agg).

(** The body of the loop that normalises the aggregators. *)
Definition normalise (agg : pyobj) : result pyobj :=
  if is_callable agg then Ok (PTuple [PNone; agg])
  else if is_string agg then Ok (PTuple [agg; PCallable builtin_list])
  else
    n <- py_len agg ;;
    if (n =? 1)%nat then
      a0 <- first_item agg ;;
      if is_string a0 then Ok (PTuple [a0; PCallable builtin_list])
      else if is_callable a0 then Ok (PTuple [PNone; a0])
      else Raise (Exception "invalid aggregation")
    else if (n =? 2)%nat then Ok agg
    else Raise (Exception "invalid aggregation").

(** [srcfld, aggfun = aggregation[outfld]] *)
Definition unpack_pair (o : pyobj) : result (pyobj * pyobj) :=
  match o with
  | PTuple [a; b] => Ok (a, b)
  | PList [a; b] => Ok (a, b)
  | PDict [(a, _); (b, _)] => Ok (PStr a, PStr b)
  | PStr (String a (String b EmptyString)) =>
      Ok (PStr (String a EmptyString), PStr (String b EmptyString))
  | PTuple _ => Raise ValueError
  | PList _ => Raise ValueError
  | PDict _ => Raise ValueError
  | PStr _ => Raise ValueError
  | _ => Raise TypeError
  end.

(** [aggfun(vals)] *)
Definition call_obj (f : pyobj) (arg : iterable) : result value :=
  match f with
  | PCallable c => call c arg
  | _ => Raise TypeError
  end.

(** [hdr.index(f)] for an arbitrary object [f]. *)
Definition index_obj (hdr : list string) (f : pyobj) : result nat :=
  match f with
  | PStr s => index hdr s
  | _ => Raise ValueError
  end.

(** [operator.itemgetter] built from the indexes [idxs]. *)
Definition itemgetter (idxs : list nat) : result (row -> value) :=
  match idxs with
  | [] => Raise TypeError
  | [i] => Ok (fun r => getitem r i)
  | _ => Ok (fun r => VTuple (map (getitem r) idxs))
  end.

(** The value one aggregation contributes to the output row of a group. *)
Definition aggregate_field (hdr : list string) (rows : list value)
    (entry : string * pyobj) : result value :=
  p <- unpack_pair (snd entry) ;;
  let srcfld := fst p in
  let aggfun := snd p in
  if is_none srcfld then call_obj aggfun (PyList rows)
  else if is_list_or_tuple srcfld then
    match srcfld with
    | PTuple fs | PList fs =>
        idxs <- mapM (index_obj hdr) fs ;;
        valgetter <- itemgetter idxs ;;
        call_obj aggfun (PyIter (map (fun r => valgetter (cells r)) rows))
    | _ => Raise TypeError
    end
  else
    idx <- index_obj hdr srcfld ;;
    call_obj aggfun (PyIter (map (fun r => getitem (cells r) idx) rows)).

Definition itermultiaggregate (src : source) (key : keyspec)
    (aggregation : odict) : output :=
  match iter_source src with
  | Raise e => Fail e
  | Ok it =>
      let hdr := header it in
      (* normalise aggregators *)
      match mapM (fun e => a <- normalise (snd e) ;; Ok (fst e, a))
                 aggregation with
      | Raise e => Fail e
      | Ok aggregation =>
          (* determine output header *)
          let outhdr :=
            match key with
            | KeyFields fs => fs
            | KeyCallable _ => ["key"]
            | KeyField f => [f]
            end in
          Emit (outhdr ++ map fst aggregation)
            (* generate data *)
            (yield_from (rowgroupby it key WholeRow)
               (fun kg =>
                  let rows := snd kg in
                  outrow <- match key with
                            | KeyFields _ => py_list (fst kg)
                            | _ => Ok [fst kg]
                            end ;;
                  aggvals <- mapM (aggregate_field hdr rows) aggregation ;;
                  Ok (outrow ++ aggvals)))
      end
  end.

Definition MultiAggregateView_iter (v : MultiAggregateView) : output :=
  itermultiaggregate (ma_source v) (ma_key v) (ma_aggregation v).

(** What [aggregate] returns. *)
Inductive AggregateView : Type :=
| Simple (v : SimpleAggregateView)
| Multi (v : MultiAggregateView).

Definition aggregate (tbl : table) (key : keyspec) (aggregation : pyobj)
    (vspec : valspec) (presorted : bool) : result AggregateView :=
  match aggregation with
  | PCallable c =>
      Ok (Simple (SimpleAggregateView_init tbl key c vspec presorted))
  | _ =>
      if is_none aggregation || is_list_or_tuple aggregation
         || is_dict aggregation then
        (* ignore value arg *)
        v <- MultiAggregateView_init tbl key aggregation presorted ;;
        Ok (Multi v)
      else
        Raise (Exception
                 "expected aggregation is callable, list, tuple, dict or None")
  end.

Definition AggregateView_iter (v : AggregateView) : output :=
  match v with
  | Simple s => SimpleAggregateView_iter s
  | Multi m => MultiAggregateView_iter m
  end.

(* ================================================================== *)
(** ** groupselectfirst, groupselectmin, groupselectmax *)

(** [lambda k, rows: next(rows)]: the first row of the group, of which
    [iterrowreduce] takes the cells; [next] of an exhausted iterator
    raises. *)
Definition first_of_group : reducer_fn :=
  fun _ rows =>
    match rows with
    | r :: _ => Ok (cells r)
    | [] => Raise (Exception "StopIteration")
    end.

Definition groupselectfirst (tbl : table) (key : keyspec) : RowReduceView :=
  rowreduce tbl key first_of_group None false.

(** Insertion of a row before the first row whose key is not greater. *)
Fixpoint insert_row_desc (getkey : row -> value) (x : row) (l : list row)
  : list row :=
  match l with
  | [] => [x]
  | y :: l' =>
      if value_leb (getkey y) (getkey x) then x :: y :: l'
      else y :: insert_row_desc getkey x l'
  end.

Definition sort_rows_desc (getkey : row -> value) (l : list row)
  : list row :=
  fold_right (insert_row_desc getkey) [] l.

(** Modelled from the spec: [sort(table, key, reverse=...)] of
    [petl.transform.sorts], missing from the sources.  Spec 6 gives the
    [reverse] argument; with it the rows come in descending key order,
    rows of equal key keeping their order as in Python's sort. *)
Definition sort_with (t : table) (key : keyspec) (reverse : bool)
  : result table :=
  if reverse then
    getkey <- keygetter (header t) key ;;
    Ok (Table (header t) (sort_rows_desc getkey (body t)))
  else sort t key.

(** What iterating [groupselectfirst(sort(table, value, reverse=...), key)]
    yields: the view sorts by [key] the table that the inner sort view
    yields, and the inner view is iterated when the header is peeked. *)
Definition groupselect_iter (reverse : bool) (tbl : table)
    (key value : keyspec) : output :=
  match sort_with tbl value reverse with
  | Raise e => Fail e
  | Ok t => RowReduceView_iter (groupselectfirst t key)
  end.

(** Iteration of [groupselectmin(table, key, value)]. *)
Definition groupselectmin_iter : table -> keyspec -> keyspec -> output :=
  groupselect_iter false.

(** Iteration of [groupselectmax(table, key, value)]. *)
Definition groupselectmax_iter : table -> keyspec -> keyspec -> output :=
  groupselect_iter true.

(* ================================================================== *)
(** ** Vocabulary of the statements *)

(** Strictly smaller in the order on values. *)
Definition vlt (a b : value) : Prop := value_compare a b = Lt.

(** The keys of two items are in order. *)
Definition key_le {A : Type} (getkey : A -> value) (x y : A) : Prop :=
  value_leb (getkey x) (getkey y) = true.

(** The item has key [k]. *)
Definition has_key {A : Type} (getkey : A -> value) (k : value) (x : A)
  : bool :=
  py_eq (getkey x) k.

(** A strict left-to-right reduction with no initial value, in the words of
    the specification: the first element starts the accumulation and the
    binary function folds in each later element in turn. *)
Definition left_reduction (f : binary_fn) (first : value)
    (others : list value) : result value :=
  fold_left (fun acc x => a <- acc ;; f a x) others (Ok first).

(** Table and function of the documentation example of [fold]. *)
Definition fold_example_table : table :=
  Table ["id"; "count"]
    [[VInt 1; VInt 3]; [VInt 1; VInt 5]; [VInt 2; VInt 4]; [VInt 2; VInt 8]].

(** [operator.add] on integers. *)
Definition operator_add : binary_fn :=
  fun a b =>
    match a, b with
    | VInt x, VInt y => Ok (VInt (x + y))
    | _, _ => Raise TypeError
    end.

(** A one-element list or tuple holding a field name or a callable. *)
Definition one_item_shape (agg : pyobj) : bool :=
  match agg with
  | PTuple [x] => is_string x || is_callable x
  | PList [x] => is_string x || is_callable x
  | _ => false
  end.

(** The descriptor shapes the specification lists: a bare callable, a bare
    field name, a one-element list or tuple of a field name or a callable,
    and a two-element tuple. *)
Definition listed_shape (agg : pyobj) : bool :=
  is_callable agg || is_string agg || one_item_shape agg
  || match agg with PTuple [_; _] => true | _ => false end.

(** The descriptor shapes [itermultiaggregate] accepts: as listed, with any
    descriptor of length two in place of the two-element tuple. *)
Definition accepted_shape (agg : pyobj) : bool :=
  is_callable agg || is_string agg || one_item_shape agg
  || match py_len agg with Ok 2%nat => true | _ => false end.

(** The value [v] is contributed to position [i] by a row of the group:
    the row is long enough to have the position, holds [v] there, and [v]
    is not the missing sentinel. *)
Definition contributed (missing : value) (grp : list row) (i : nat)
    (v : value) : Prop :=
  exists r, In r grp /\ (i < List.length r)%nat /\ nth i r VNone = v
            /\ v <> missing.

(** The cell the specification asks for at position [i] of a group: the
    single contributed value; the missing sentinel when there is none; a
    Conflict of all the contributed values when there are several. *)
Definition merged_cell (missing : value) (grp : list row) (i : nat)
    (cell : value) : Prop :=
  (exists v, contributed missing grp i v /\
             (forall w, contributed missing grp i w -> w = v) /\ cell = v)
  \/ ((forall w, ~ contributed missing grp i w) /\ cell = missing)
  \/ ((exists v w, contributed missing grp i v /\
                   contributed missing grp i w /\ v <> w) /\
      exists members,
        cell = VConflict members /\ NoDup members /\
        forall w, In w members <-> contributed missing grp i w).

(** The table of the documentation example of [mergeduplicates], with
    integers standing for its decimal fractions. *)
Definition merge_example_table : table :=
  Table ["foo"; "bar"; "baz"]
    [[VStr "A"; VInt 1; VInt 27];
     [VStr "B"; VInt 2; VNone];
     [VStr "D"; VInt 3; VInt 94];
     [VStr "B"; VNone; VInt 78];
     [VStr "E"; VNone; VInt 42];
     [VStr "D"; VInt 3; VInt 123];
     [VStr "A"; VInt 2; VNone]].

(** The table of the documentation example of [rowreduce], and a reducer
    [lambda key, rows: [key, len(list(rows))]]. *)
Definition rowreduce_example_table : table :=
  Table ["foo"; "bar"]
    [[VStr "a"; VInt 3]; [VStr "a"; VInt 7]; [VStr "b"; VInt 2];
     [VStr "b"; VInt 1]; [VStr "b"; VInt 9]; [VStr "c"; VInt 4]].

Definition count_rows : reducer_fn :=
  fun key rows => Ok [key; VInt (Z.of_nat (List.length rows))].

(** What [mergeduplicates] yields on the documentation example. *)
Definition merge_example_output : table :=
  Table ["foo"; "bar"; "baz"]
    [[VStr "A"; VConflict [VInt 1; VInt 2]; VInt 27];
     [VStr "B"; VInt 2; VInt 78];
     [VStr "D"; VInt 3; VConflict [VInt 94; VInt 123]];
     [VStr "E"; VNone; VInt 42]].

(** The position of a field in a header (the first, when the name
    repeats). *)
Definition position (hdr : list string) (f : string) : nat :=
  match index hdr f with
  | Ok i => i
  | Raise _ => O
  end.

(** A table with rows shorter and longer than its header. *)
Definition ragged_table : table :=
  Table ["foo"; "bar"; "baz"]
    [[VStr "C"]; [VStr "A"; VInt 1; VNone; VInt 5]; [VStr "B"; VInt 2]].

(** [d[k]], where the key is present. *)
Fixpoint od_get (d : odict) (k : string) : option pyobj :=
  match d with
  | [] => None
  | (k', v) :: d' => if streq k' k then Some v else od_get d' k
  end.

(** The iteration raises [e] without having yielded a data row. *)
Definition fails_without_rows (o : output) (e : exn) : Prop :=
  o = Fail e \/ exists hdr, o = Emit hdr (Stream [] (Some e)).

(** The iteration yields a header and no data row, and ends normally. *)
Definition yields_header_only (o : output) : Prop :=
  exists hdr, o = Emit hdr (Stream [] None).

(** [i] is the first position of the header that holds the name [f]. *)
Definition first_position (hdr : list string) (f : string) (i : nat)
  : Prop :=
  nth_error hdr i = Some f /\
  forall j, (j < i)%nat -> nth_error hdr j <> Some f.

(** The cells [kc] are the key value(s) [k] of a group: the value itself
    for a single key field, the components of the tuple for a compound
    key. *)
Definition key_values (key : keyspec) (k : value) (kc : row) : Prop :=
  match key with
  | KeyField _ => kc = [k]
  | KeyFields _ => k = VTuple kc
  | KeyCallable _ => False
  end.

(* ================================================================== *)
(** * Properties *)

(** ** The order on values *)

Section LexFacts.
Context {A : Type} (cmp : A -> A -> comparison).

Lemma lex_eq (l1 : list A) :
  Forall (fun x => forall y, cmp x y = Eq -> x = y) l1 ->
  forall l2, lex cmp l1 l2 = Eq -> l1 = l2.
Proof.
  induction 1 as [|x l1 Hx _ IH]; intros [|y l2]; simpl; try discriminate.
  - reflexivity.
  - destruct (cmp x y) eqn:E; try discriminate.
    intros H. rewrite (Hx y E), (IH l2 H). reflexivity.
Qed.

Lemma lex_refl (l : list A) :
  Forall (fun x => cmp x x = Eq) l -> lex cmp l l = Eq.
Proof.
  induction 1 as [|x l Hx _ IH]; simpl; [reflexivity|].
  rewrite Hx. exact IH.
Qed.

Lemma lex_antisym (l1 : list A) :
  Forall (fun x => forall y, cmp y x = CompOpp (cmp x y)) l1 ->
  forall l2, lex cmp l2 l1 = CompOpp (lex cmp l1 l2).
Proof.
  induction 1 as [|x l1 Hx _ IH]; intros [|y l2]; simpl; try reflexivity.
  rewrite (Hx y). destruct (cmp x y); simpl; auto.
Qed.

Hypothesis cmp_eq : forall x y, cmp x y = Eq -> x = y.

Lemma lex_trans (l1 : list A) :
  Forall (fun x => forall y z, cmp x y = Lt -> cmp y z = Lt -> cmp x z = Lt)
         l1 ->
  forall l2 l3, lex cmp l1 l2 = Lt -> lex cmp l2 l3 = Lt ->
                lex cmp l1 l3 = Lt.
Proof.
  induction 1 as [|x l1 Hx _ IH]; intros [|y l2] [|z l3]; simpl;
    try discriminate; try reflexivity.
  destruct (cmp x y) eqn:Exy; try discriminate.
  - apply cmp_eq in Exy. subst y.
    destruct (cmp x z) eqn:Exz; try discriminate; auto.
    apply IH.
  - intros _. destruct (cmp y z) eqn:Eyz; try discriminate.
    + apply cmp_eq in Eyz. subst z. rewrite Exy. reflexivity.
    + intros _. rewrite (Hx y z Exy Eyz). reflexivity.
Qed.
End LexFacts.

Lemma ascii_compare_trans (a b c : ascii) :
  Ascii.compare a b = Lt -> Ascii.compare b c = Lt -> Ascii.compare a c = Lt.
Proof.
  unfold Ascii.compare. rewrite !N.compare_lt_iff. lia.
Qed.

Lemma string_compare_refl (s : string) : String.compare s s = Eq.
Proof.
  pose proof (String.compare_antisym s s) as H.
  destruct (String.compare s s); simpl in H; congruence.
Qed.

Lemma string_compare_trans (s1 : string) :
  forall s2 s3, String.compare s1 s2 = Lt -> String.compare s2 s3 = Lt ->
                String.compare s1 s3 = Lt.
Proof.
  induction s1 as [|a s1 IH]; intros [|b s2] [|c s3]; simpl;
    try discriminate; try reflexivity.
  destruct (Ascii.compare a b) eqn:Eab; try discriminate.
  - apply Ascii.compare_eq_iff in Eab. subst b.
    destruct (Ascii.compare a c); try discriminate; auto.
    apply IH.
  - intros _. destruct (Ascii.compare b c) eqn:Ebc; try discriminate.
    + apply Ascii.compare_eq_iff in Ebc. subst c. rewrite Eab. reflexivity.
    + intros _. rewrite (ascii_compare_trans a b c Eab Ebc). reflexivity.
Qed.

Lemma value_compare_eq (a : value) :
  forall b, value_compare a b = Eq -> a = b.
Proof.
  induction a as [|x|x|l IH|l IH|l IH] using value_nested_ind;
    intros [|y|y|m|m|m]; simpl; try discriminate; intros H.
  - reflexivity.
  - apply Z.compare_eq in H. congruence.
  - apply String.compare_eq_iff in H. congruence.
  - f_equal. exact (lex_eq value_compare l IH m H).
  - f_equal. exact (lex_eq value_compare l IH m H).
  - f_equal. exact (lex_eq value_compare l IH m H).
Qed.

Lemma value_compare_refl (a : value) : value_compare a a = Eq.
Proof.
  induction a as [|x|x|l IH|l IH|l IH] using value_nested_ind; simpl.
  - reflexivity.
  - apply Z.compare_refl.
  - apply string_compare_refl.
  - exact (lex_refl value_compare l IH).
  - exact (lex_refl value_compare l IH).
  - exact (lex_refl value_compare l IH).
Qed.

Lemma value_compare_antisym (a : value) :
  forall b, value_compare b a = CompOpp (value_compare a b).
Proof.
  induction a as [|x|x|l IH|l IH|l IH] using value_nested_ind;
    intros [|y|y|m|m|m]; simpl; try reflexivity.
  - apply Z.compare_antisym.
  - apply String.compare_antisym.
  - exact (lex_antisym value_compare l IH m).
  - exact (lex_antisym value_compare l IH m).
  - exact (lex_antisym value_compare l IH m).
Qed.

Lemma value_compare_trans (a : value) :
  forall b c, value_compare a b = Lt -> value_compare b c = Lt ->
              value_compare a c = Lt.
Proof.
  induction a as [|x|x|l IH|l IH|l IH] using value_nested_ind;
    intros [|y|y|m|m|m] [|z|z|n|n|n]; simpl;
    try discriminate; try reflexivity.
  - rewrite !Z.compare_lt_iff. lia.
  - apply string_compare_trans.
  - exact (lex_trans value_compare value_compare_eq l IH m n).
  - exact (lex_trans value_compare value_compare_eq l IH m n).
  - exact (lex_trans value_compare value_compare_eq l IH m n).
Qed.

Lemma py_eq_true (a b : value) : py_eq a b = true <-> a = b.
Proof.
  unfold py_eq. split.
  - destruct (value_compare a b) eqn:E; try discriminate.
    intros _. exact (value_compare_eq a b E).
  - intros ->. rewrite value_compare_refl. reflexivity.
Qed.

Lemma py_eq_refl (a : value) : py_eq a a = true.
Proof. apply py_eq_true. reflexivity. Qed.

Lemma py_eq_false (a b : value) : py_eq a b = false <-> a <> b.
Proof.
  rewrite <- py_eq_true. destruct (py_eq a b); split; congruence.
Qed.

Lemma value_leb_cases (a b : value) :
  value_leb a b = true <-> vlt a b \/ a = b.
Proof.
  unfold value_leb, vlt. split.
  - destruct (value_compare a b) eqn:E; try discriminate; intros _.
    + right. exact (value_compare_eq a b E).
    + left. reflexivity.
  - intros [H| ->].
    + rewrite H. reflexivity.
    + rewrite value_compare_refl. reflexivity.
Qed.

Lemma value_leb_false (a b : value) : value_leb a b = false -> vlt b a.
Proof.
  unfold value_leb, vlt. rewrite (value_compare_antisym a b).
  destruct (value_compare a b); simpl; congruence.
Qed.

Lemma vlt_irrefl (a : value) : ~ vlt a a.
Proof. unfold vlt. rewrite value_compare_refl. discriminate. Qed.

Lemma vlt_trans (a b c : value) : vlt a b -> vlt b c -> vlt a c.
Proof. apply value_compare_trans. Qed.

Lemma vlt_neq (a b : value) : vlt a b -> a <> b.
Proof. intros H ->. exact (vlt_irrefl b H). Qed.

Lemma value_leb_refl (a : value) : value_leb a a = true.
Proof. apply value_leb_cases. right. reflexivity. Qed.

Lemma value_leb_trans (a b c : value) :
  value_leb a b = true -> value_leb b c = true -> value_leb a c = true.
Proof.
  rewrite !value_leb_cases. intros [H1| ->] [H2| ->]; auto.
  left. exact (vlt_trans a b c H1 H2).
Qed.

Lemma value_leb_neq_lt (a b : value) :
  value_leb a b = true -> a <> b -> vlt a b.
Proof. rewrite value_leb_cases. intros [H|H] N; [exact H | contradiction]. Qed.

(** ** The sort step *)

Section Sorting.
Variable getkey : row -> value.

Lemma insert_row_In (x y : row) (l : list row) :
  In y (insert_row getkey x l) <-> y = x \/ In y l.
Proof.
  induction l as [|z l IH]; simpl.
  - intuition.
  - destruct (value_leb (getkey x) (getkey z)); simpl.
    + intuition.
    + rewrite IH. intuition.
Qed.

Lemma sort_rows_In (y : row) (l : list row) :
  In y (sort_rows getkey l) <-> In y l.
Proof.
  induction l as [|x l IH]; simpl; [reflexivity|].
  rewrite insert_row_In, IH. intuition.
Qed.

Lemma insert_row_sorted (x : row) (l : list row) :
  StronglySorted (key_le getkey) l ->
  StronglySorted (key_le getkey) (insert_row getkey x l).
Proof.
  induction 1 as [|z l Hs IH Hz]; simpl.
  - constructor; constructor.
  - destruct (value_leb (getkey x) (getkey z)) eqn:E.
    + constructor; [constructor; assumption|].
      constructor; [exact E|].
      rewrite Forall_forall in *. intros w Hw. unfold key_le in *.
      exact (value_leb_trans _ _ _ E (Hz w Hw)).
    + constructor; [exact IH|].
      rewrite Forall_forall in *. intros w Hw.
      apply insert_row_In in Hw. destruct Hw as [->|Hw]; [|auto].
      unfold key_le. apply value_leb_cases. left.
      exact (value_leb_false _ _ E).
Qed.

Lemma sort_rows_sorted (l : list row) :
  StronglySorted (key_le getkey) (sort_rows getkey l).
Proof.
  induction l as [|x l IH]; simpl; [constructor|].
  apply insert_row_sorted. exact IH.
Qed.

Lemma sort_rows_id (l : list row) :
  StronglySorted (key_le getkey) l -> sort_rows getkey l = l.
Proof.
  induction 1 as [|x l Hs IH Hx]; simpl; [reflexivity|].
  change (insert_row getkey x (sort_rows getkey l) = x :: l).
  rewrite IH. destruct l as [|y l]; simpl; [reflexivity|].
  inversion Hx as [|? ? Hy _]; subst. unfold key_le in Hy.
  rewrite Hy. reflexivity.
Qed.

(** The sort is stable: rows of equal key keep their order. *)
Lemma insert_row_filter (k : value) (x : row) (l : list row) :
  filter (has_key getkey k) (insert_row getkey x l)
  = filter (has_key getkey k) (x :: l).
Proof.
  induction l as [|z l IH]; [reflexivity|].
  cbn [insert_row].
  destruct (value_leb (getkey x) (getkey z)) eqn:E; [reflexivity|].
  cbn [filter] in *. rewrite IH.
  destruct (has_key getkey k x) eqn:Hx; [|reflexivity].
  destruct (has_key getkey k z) eqn:Hz; [|reflexivity].
  unfold has_key in Hx, Hz. apply py_eq_true in Hx, Hz.
  rewrite Hx, Hz, value_leb_refl in E. discriminate.
Qed.

Lemma sort_rows_filter (k : value) (l : list row) :
  filter (has_key getkey k) (sort_rows getkey l)
  = filter (has_key getkey k) l.
Proof.
  induction l as [|x l IH]; [reflexivity|].
  change (sort_rows getkey (x :: l))
    with (insert_row getkey x (sort_rows getkey l)).
  rewrite insert_row_filter. cbn [filter]. rewrite IH. reflexivity.
Qed.
End Sorting.

(** ** The row-group iterator *)

Section Grouping.
Context {A : Type} (getkey : A -> value).

Lemma groupby_head (x : A) (l : list A) :
  exists g rest, groupby getkey (x :: l) = (getkey x, x :: g) :: rest.
Proof.
  simpl. destruct (groupby getkey l) as [|[k g] rest].
  - exists [], []. reflexivity.
  - destruct (py_eq (getkey x) k).
    + exists g, rest. reflexivity.
    + exists [], ((k, g) :: rest). reflexivity.
Qed.

(** No group is empty, and each carries the key of all its items. *)
Lemma groupby_groups (l : list A) :
  Forall (fun kg => snd kg <> [] /\
                    Forall (fun x => getkey x = fst kg) (snd kg))
         (groupby getkey l).
Proof.
  induction l as [|x l IH]; simpl; [constructor|].
  destruct (groupby getkey l) as [|[k g] rest].
  - repeat constructor. discriminate.
  - inversion IH as [|? ? [_ Hg] Hrest]; subst. simpl in Hg.
    destruct (py_eq (getkey x) k) eqn:E.
    + apply py_eq_true in E. constructor; [|exact Hrest]. simpl.
      split; [discriminate|]. constructor; [reflexivity|].
      rewrite E. exact Hg.
    + constructor; [|exact IH]. simpl.
      split; [discriminate|]. repeat constructor.
Qed.

Lemma groupby_keys_In (k : value) (l : list A) :
  In k (map fst (groupby getkey l)) <-> In k (map getkey l).
Proof.
  induction l as [|x l IH]; simpl; [reflexivity|].
  destruct (groupby getkey l) as [|[k' g] rest]; simpl in *.
  - rewrite <- IH. reflexivity.
  - destruct (py_eq (getkey x) k') eqn:E; simpl.
    + apply py_eq_true in E. rewrite <- IH. rewrite E. intuition.
    + rewrite <- IH. reflexivity.
Qed.

(** Consecutive groups have different keys. *)
Lemma groupby_adjacent (l : list A) :
  Sorted (fun a b => a <> b) (map fst (groupby getkey l)).
Proof.
  induction l as [|x l IH]; simpl; [constructor|].
  destruct (groupby getkey l) as [|[k g] rest]; simpl in *.
  - repeat constructor.
  - destruct (py_eq (getkey x) k) eqn:E; simpl.
    + apply py_eq_true in E. rewrite E. exact IH.
    + apply py_eq_false in E. constructor; [exact IH|].
      constructor. exact E.
Qed.

(** Where consecutive items have different keys, each item is a group. *)
Lemma groupby_singletons (l : list A) :
  Sorted (fun a b => a <> b) (map getkey l) ->
  groupby getkey l = map (fun x => (getkey x, [x])) l.
Proof.
  induction l as [|x l IH]; simpl; [reflexivity|].
  intros H. inversion H as [|? ? Hs Hh]; subst.
  rewrite (IH Hs). destruct l as [|y l]; simpl; [reflexivity|].
  inversion Hh as [|? ? Hxy]; subst. apply py_eq_false in Hxy.
  rewrite Hxy. reflexivity.
Qed.

(** On a key-ordered sequence the group keys increase strictly. *)
Lemma groupby_sorted_keys (l : list A) :
  StronglySorted (key_le getkey) l ->
  StronglySorted vlt (map fst (groupby getkey l)).
Proof.
  induction 1 as [|x l Hs IH Hx]; simpl; [constructor|].
  pose proof (groupby_keys_In) as HIn.
  destruct (groupby getkey l) as [|[k g] rest] eqn:G; simpl in *.
  - repeat constructor.
  - destruct (py_eq (getkey x) k) eqn:E; simpl.
    + apply py_eq_true in E. rewrite E. exact IH.
    + apply py_eq_false in E.
      assert (Hk : vlt (getkey x) k).
      { apply value_leb_neq_lt; [|exact E].
        assert (Hin : In k (map getkey l)).
        { apply HIn. rewrite G. left. reflexivity. }
        apply in_map_iff in Hin. destruct Hin as [y [<- Hy]].
        rewrite Forall_forall in Hx. exact (Hx y Hy). }
      constructor; [exact IH|]. constructor; [exact Hk|].
      inversion IH as [|? ? _ Hr]; subst.
      rewrite Forall_forall in *. intros k' Hk'.
      exact (vlt_trans _ _ _ Hk (Hr k' Hk')).
Qed.

Lemma has_key_self (x : A) : has_key getkey (getkey x) x = true.
Proof. apply py_eq_refl. Qed.

Lemma filter_none (p : A -> bool) (l : list A) :
  (forall y, In y l -> p y = false) -> filter p l = [].
Proof.
  induction l as [|y l IH]; simpl; intros H; [reflexivity|].
  rewrite (H y (or_introl eq_refl)). apply IH. intros z Hz.
  apply H. right. exact Hz.
Qed.

(** On a key-ordered sequence each group holds all the items of its key,
    in their order. *)
Lemma groupby_sorted_groups (l : list A) :
  StronglySorted (key_le getkey) l ->
  Forall (fun kg => snd kg = filter (has_key getkey (fst kg)) l)
         (groupby getkey l).
Proof.
  induction 1 as [|x l Hs IH Hx]; simpl; [constructor|].
  pose proof (groupby_sorted_keys l Hs) as Hkeys.
  pose proof (fun k => groupby_keys_In k l) as HIn.
  assert (Hlow : forall k', In k' (map fst (groupby getkey l)) ->
                            value_leb (getkey x) k' = true).
  { intros k' Hk'. apply HIn in Hk'. apply in_map_iff in Hk'.
    destruct Hk' as [y [<- Hy]]. rewrite Forall_forall in Hx.
    exact (Hx y Hy). }
  destruct (groupby getkey l) as [|[k g] rest] eqn:G; simpl in *.
  - constructor; [|constructor]. simpl. rewrite has_key_self.
    destruct l as [|y l]; [reflexivity|].
    destruct (groupby_head y l) as [g' [r' Hg']]. congruence.
  - inversion IH as [|? ? Hg Hrest]; subst. simpl in Hg.
    inversion Hkeys as [|? ? Hsk Hk]; subst.
    assert (Hothers : Forall
              (fun kg => snd kg
                         = (if has_key getkey (fst kg) x
                            then x :: filter (has_key getkey (fst kg)) l
                            else filter (has_key getkey (fst kg)) l))
              rest).
    { rewrite Forall_forall in *. intros kg Hkg.
      assert (Hlt : vlt k (fst kg)) by (apply Hk, in_map, Hkg).
      assert (Hne : has_key getkey (fst kg) x = false).
      { unfold has_key. apply py_eq_false. intros Heq.
        specialize (Hlow k (or_introl eq_refl)).
        rewrite Heq in Hlow. apply value_leb_cases in Hlow.
        destruct Hlow as [Hl|Hl].
        - exact (vlt_irrefl _ (vlt_trans _ _ _ Hl Hlt)).
        - rewrite Hl in Hlt. exact (vlt_irrefl _ Hlt). }
      rewrite Hne. exact (Hrest kg Hkg). }
    destruct (py_eq (getkey x) k) eqn:E.
    + constructor; [|exact Hothers]. simpl. rewrite has_key_self.
      apply py_eq_true in E. rewrite E. reflexivity.
    + apply py_eq_false in E.
      constructor; [|constructor; [|exact Hothers]]; simpl.
      * rewrite has_key_self. f_equal.
        symmetry. apply filter_none. intros y Hy.
        unfold has_key. apply py_eq_false. intros Heq.
        assert (Hin : In (getkey x) (k :: map fst rest)).
        { apply HIn. rewrite <- Heq. apply in_map. exact Hy. }
        pose proof (Hlow k (or_introl eq_refl)) as Hxk.
        pose proof (value_leb_neq_lt _ _ Hxk E) as Hlt.
        destruct Hin as [Hin|Hin]; [congruence|].
        rewrite Forall_forall in Hk.
        exact (vlt_irrefl _ (vlt_trans _ _ _ Hlt (Hk _ Hin))).
      * replace (has_key getkey k x) with false; [reflexivity|].
        symmetry. unfold has_key. apply py_eq_false. exact E.
Qed.
End Grouping.

(** ** Generators *)

Lemma yield_each_ext {A B : Type} (f g : A -> result B) (l : list A) :
  (forall x, f x = g x) -> yield_each f l = yield_each g l.
Proof.
  intros H. induction l as [|x l IH]; simpl; [reflexivity|].
  rewrite H, IH. reflexivity.
Qed.

Lemma yield_from_ext {A B : Type} (f g : A -> result B)
    (r : result (list A)) :
  (forall x, f x = g x) -> yield_from r f = yield_from r g.
Proof.
  intros H. destruct r; simpl; [apply yield_each_ext; exact H|reflexivity].
Qed.

(** ** fold *)

Lemma reduce_from_left_reduction (f : binary_fn) (l : list value) :
  forall acc, reduce_from f acc l = left_reduction f acc l.
Proof.
  unfold left_reduction.
  induction l as [|x l IH]; intros acc; simpl; [reflexivity|].
  destruct (f acc x) as [a|e]; simpl.
  - apply IH.
  - clear IH. induction l as [|y l IH]; simpl; [reflexivity|exact IH].
Qed.

(** C4: the fold view yields the fixed header ('key', 'value') and then,
    for each group of the row-group iterator, the key paired with the
    strict left-to-right reduction of the group's values by the binary
    function, started from the group's first value; no group is empty, a
    group of one element yields that element unchanged, and the
    documentation example yields [('key','value'),(1,8),(2,12)]. *)
Theorem fold_left_to_right :
  forall (tbl : table) (key : keyspec) (f : binary_fn) (vspec : valspec)
         (presorted : bool) (groups : list (value * list value)),
    rowgroupby_source (sorted_unless presorted tbl key) key vspec
      = Ok groups ->
    Forall (fun kg => snd kg <> []) groups /\
    FoldView_iter (fold tbl key f vspec presorted)
      = Emit ["key"; "value"]
          (yield_each
             (fun kg =>
                match snd kg with
                | [] => Raise TypeError
                | first :: others =>
                    v <- left_reduction f first others ;; Ok [fst kg; v]
                end)
             groups) /\
    (forall x, reduce f [x] = Ok x) /\
    FoldView_iter
      (fold fold_example_table (KeyField "id") operator_add
         (ValField "count") true)
      = Emit ["key"; "value"]
          (Stream [[VInt 1; VInt 8]; [VInt 2; VInt 12]] None).
Proof.
  intros tbl key f vspec presorted groups H.
  split; [|split; [|split]].
  - unfold rowgroupby_source, rowgroupby in H.
    destruct (iter_source (sorted_unless presorted tbl key)) as [t|e];
      simpl in H; [|discriminate].
    destruct (keygetter (header t) key) as [gk|e]; simpl in H;
      [|discriminate].
    destruct (valgetter (header t) vspec) as [gv|e]; simpl in H;
      [|discriminate].
    injection H as <-.
    pose proof (groupby_groups gk (body t)) as G.
    induction G as [|kg gs [Hne _] _ IH]; simpl; constructor; [|exact IH].
    simpl. destruct (snd kg); [congruence|discriminate].
  - unfold FoldView_iter, fold, FoldView_init, iterfold. simpl.
    rewrite H. simpl. f_equal. apply yield_each_ext. intros [k g]. simpl.
    destruct g as [|x g]; simpl; [reflexivity|].
    rewrite reduce_from_left_reduction. reflexivity.
  - reflexivity.
  - reflexivity.
Qed.

Lemma fold_left_to_right_witness :
  FoldView_iter
    (fold fold_example_table (KeyField "id") operator_add
       (ValField "count") false)
  = Emit ["key"; "value"]
      (Stream [[VInt 1; VInt 8]; [VInt 2; VInt 12]] None).
Proof.
  destruct (fold_left_to_right fold_example_table (KeyField "id")
              operator_add (ValField "count") false
              [(VInt 1, [VInt 3; VInt 5]); (VInt 2, [VInt 4; VInt 8])]
              eq_refl) as [_ [H _]].
  rewrite H. reflexivity.
Defined.

(** ** aggregate *)

(** C7: the header the simple aggregate view yields depends on the key
    specification alone: the key fields followed by 'value' for a compound
    key, ('key', 'value') for a callable key, and (field, 'value') for a
    single field name, whatever the table, the aggregation function, the
    value specification and the sort policy. *)
Theorem simple_aggregate_header :
  forall (tbl : table) (aggregation : callable) (vspec : valspec)
         (presorted : bool),
    (forall fs, exists rows,
        SimpleAggregateView_iter
          (SimpleAggregateView_init tbl (KeyFields fs) aggregation vspec
             presorted)
        = Emit (fs ++ ["value"]) rows) /\
    (forall g, exists rows,
        SimpleAggregateView_iter
          (SimpleAggregateView_init tbl (KeyCallable g) aggregation vspec
             presorted)
        = Emit ["key"; "value"] rows) /\
    (forall f, exists rows,
        SimpleAggregateView_iter
          (SimpleAggregateView_init tbl (KeyField f) aggregation vspec
             presorted)
        = Emit [f; "value"] rows).
Proof.
  intros tbl aggregation vspec presorted.
  split; [|split]; intros k; eexists; reflexivity.
Qed.

Lemma py_sum_ones (l : list value) :
  py_sum (map (fun _ => 1) l) = Z.of_nat (List.length l).
Proof.
  unfold py_sum.
  assert (H : forall a, fold_left Z.add (map (fun _ : value => 1) l) a
                        = a + Z.of_nat (List.length l)).
  { induction l as [|x l IH]; intros a; simpl List.length; simpl map;
      simpl fold_left.
    - simpl. lia.
    - rewrite IH. lia. }
  rewrite H. lia.
Qed.

(** C9 as stated fails: [None] is neither callable nor a list, tuple or
    dict, and [aggregate] accepts it. *)
Lemma aggregate_none_accepted :
  ~ (forall (tbl : table) (key : keyspec) (aggregation : pyobj)
            (vspec : valspec) (presorted : bool),
        is_callable aggregation = false ->
        is_list_or_tuple aggregation = false ->
        is_dict aggregation = false ->
        exists e, aggregate tbl key aggregation vspec presorted = Raise e).
Proof.
  intros H.
  destruct (H (Table [] []) (KeyField "foo") PNone WholeRow false
              eq_refl eq_refl eq_refl) as [e He].
  discriminate He.
Qed.

(** C9, amended: an aggregation argument that is neither callable, nor
    [None], nor a list, tuple or dict makes [aggregate] raise when the view
    is constructed. *)
Theorem aggregate_rejects_unsupported :
  forall (tbl : table) (key : keyspec) (aggregation : pyobj)
         (vspec : valspec) (presorted : bool),
    is_callable aggregation = false ->
    is_none aggregation = false ->
    is_list_or_tuple aggregation = false ->
    is_dict aggregation = false ->
    aggregate tbl key aggregation vspec presorted
    = Raise (Exception
               "expected aggregation is callable, list, tuple, dict or None").
Proof.
  intros tbl key aggregation vspec presorted Hc Hn Hl Hd.
  destruct aggregation; simpl in *; try discriminate; reflexivity.
Qed.

Lemma aggregate_rejects_unsupported_witness :
  aggregate fold_example_table (KeyField "id") (PInt 5) WholeRow false
  = Raise (Exception
             "expected aggregation is callable, list, tuple, dict or None").
Proof.
  exact (aggregate_rejects_unsupported fold_example_table (KeyField "id")
           (PInt 5) WholeRow false eq_refl eq_refl eq_refl eq_refl).
Defined.

(** C10: on the multi-aggregate path (aggregation [None], a list, a tuple
    or a dict) the value argument is ignored: two calls of [aggregate]
    that differ in it alone build the same view or raise the same
    exception, and the views yield the same header and rows. *)
Theorem aggregate_ignores_value :
  forall (tbl : table) (key : keyspec) (aggregation : pyobj)
         (v1 v2 : valspec) (presorted : bool),
    is_none aggregation || is_list_or_tuple aggregation
      || is_dict aggregation = true ->
    aggregate tbl key aggregation v1 presorted
    = aggregate tbl key aggregation v2 presorted /\
    (forall w1 w2,
        aggregate tbl key aggregation v1 presorted = Ok w1 ->
        aggregate tbl key aggregation v2 presorted = Ok w2 ->
        AggregateView_iter w1 = AggregateView_iter w2).
Proof.
  intros tbl key aggregation v1 v2 presorted H.
  assert (E : aggregate tbl key aggregation v1 presorted
              = aggregate tbl key aggregation v2 presorted).
  { destruct aggregation; simpl in *; try discriminate; reflexivity. }
  split; [exact E|].
  intros w1 w2 H1 H2. rewrite E in H1. congruence.
Qed.

Lemma aggregate_ignores_value_witness :
  aggregate fold_example_table (KeyField "id")
    (PDict [("n", PCallable builtin_len)]) WholeRow false
  = aggregate fold_example_table (KeyField "id")
      (PDict [("n", PCallable builtin_len)]) (ValField "count") false.
Proof.
  exact (proj1 (aggregate_ignores_value fold_example_table (KeyField "id")
                  (PDict [("n", PCallable builtin_len)]) WholeRow
                  (ValField "count") false eq_refl)).
Defined.

Lemma mapM_raise {A B : Type} (f : A -> result B) (l : list A) (x : A)
    (e : exn) :
  In x l -> f x = Raise e -> exists e', mapM f l = Raise e'.
Proof.
  induction l as [|y l IH]; simpl; [contradiction|].
  intros [->|Hin] Hx.
  - rewrite Hx. simpl. eauto.
  - destruct (f y) as [b|e0]; simpl; [|eauto].
    destruct (IH Hin Hx) as [e' ->]. simpl. eauto.
Qed.

(** C6 as stated fails: a two-element list is none of the listed shapes,
    and it is taken as it is instead of raising. *)
Lemma normalise_two_element_list :
  ~ (forall agg : pyobj,
        listed_shape agg = false -> exists e, normalise agg = Raise e).
Proof.
  intros H.
  destruct (H (PList [PStr "bar"; PCallable builtin_len]) eq_refl)
    as [e He].
  discriminate He.
Qed.

(** C6, amended: before any group is processed every descriptor is
    normalised: a bare callable becomes (None, callable); a bare field
    name, or a one-element list or tuple of a field name, becomes (field,
    list); a one-element list or tuple of a callable becomes (None,
    callable); a descriptor of length two (a tuple, a list or another
    sized object) is taken as it is; any other descriptor raises, and then
    the view yields nothing, not even its header. *)
Theorem normalise_descriptor :
  (forall c, normalise (PCallable c) = Ok (PTuple [PNone; PCallable c])) /\
  (forall s,
      normalise (PStr s) = Ok (PTuple [PStr s; PCallable builtin_list]) /\
      normalise (PTuple [PStr s])
        = Ok (PTuple [PStr s; PCallable builtin_list]) /\
      normalise (PList [PStr s])
        = Ok (PTuple [PStr s; PCallable builtin_list])) /\
  (forall c,
      normalise (PTuple [PCallable c]) = Ok (PTuple [PNone; PCallable c]) /\
      normalise (PList [PCallable c]) = Ok (PTuple [PNone; PCallable c])) /\
  (forall agg,
      is_callable agg = false -> is_string agg = false ->
      py_len agg = Ok 2%nat -> normalise agg = Ok agg) /\
  (forall agg,
      accepted_shape agg = false -> exists e, normalise agg = Raise e) /\
  (forall src key (aggregation : odict) outfld agg,
      In (outfld, agg) aggregation -> accepted_shape agg = false ->
      exists e, itermultiaggregate src key aggregation = Fail e).
Proof.
  assert (Hbad : forall agg,
             accepted_shape agg = false -> exists e, normalise agg = Raise e).
  { intros agg H. unfold accepted_shape in H. unfold normalise.
    destruct agg as [|z|s|c|l1|l2|d]; simpl in *; try discriminate; eauto.
    - destruct l1 as [|x [|y [|w l]]]; simpl in *; eauto; try discriminate.
      destruct x; simpl in *; try discriminate; eauto.
    - destruct l2 as [|x [|y [|w l]]]; simpl in *; eauto; try discriminate.
      destruct x; simpl in *; try discriminate; eauto.
    - destruct d as [|x [|y [|w d]]]; simpl in *; eauto; discriminate. }
  repeat split; try reflexivity.
  - intros agg Hc Hs Hl. unfold normalise. rewrite Hc, Hs, Hl.
    reflexivity.
  - exact Hbad.
  - intros src key aggregation outfld agg Hin Hacc.
    unfold itermultiaggregate.
    destruct (iter_source src) as [it|e]; [|eauto].
    destruct (Hbad agg Hacc) as [e He].
    destruct (mapM_raise
                (fun en => a <- normalise (snd en) ;; Ok (fst en, a))
                aggregation (outfld, agg) e Hin) as [e' ->].
    + simpl. rewrite He. reflexivity.
    + eauto.
Qed.

Lemma normalise_descriptor_witness :
  exists e,
    itermultiaggregate (Given fold_example_table) (KeyField "id")
      [("n", PTuple [PStr "id"; PStr "count"; PCallable builtin_len])]
    = Fail e.
Proof.
  destruct normalise_descriptor as [_ [_ [_ [_ [_ H]]]]].
  exact (H (Given fold_example_table) (KeyField "id")
           [("n", PTuple [PStr "id"; PStr "count"; PCallable builtin_len])]
           "n" (PTuple [PStr "id"; PStr "count"; PCallable builtin_len])
           (or_introl eq_refl) eq_refl).
Defined.

(** ** Sets of values *)

Lemma inb_In (v : value) (l : list value) : inb v l = true <-> In v l.
Proof.
  unfold inb. rewrite existsb_exists. split.
  - intros [x [Hx E]]. apply py_eq_true in E. subst x. exact Hx.
  - intros H. exists v. split; [exact H|apply py_eq_refl].
Qed.

Lemma distinct_values_In (l : list value) :
  forall seen v,
    In v (distinct_values seen l) <-> In v l /\ ~ In v seen.
Proof.
  induction l as [|x l IH]; intros seen v; simpl; [tauto|].
  destruct (inb x seen) eqn:E.
  - apply inb_In in E. rewrite IH. split.
    + intros [H1 H2]. auto.
    + intros [[->|H1] H2]; [contradiction|auto].
  - assert (N : ~ In x seen).
    { intros H. apply inb_In in H. congruence. }
    simpl. rewrite IH. simpl. split.
    + intros [->|[H1 H2]]; [auto|]. split; [auto|]. intros H. apply H2. auto.
    + intros [[->|H1] H2]; [auto|].
      destruct (py_eq x v) eqn:Exv.
      * apply py_eq_true in Exv. auto.
      * apply py_eq_false in Exv. right. split; [exact H1|].
        intros [H|H]; auto.
Qed.

Lemma distinct_values_NoDup (l : list value) :
  forall seen, NoDup (distinct_values seen l).
Proof.
  induction l as [|x l IH]; intros seen; simpl; [constructor|].
  destruct (inb x seen); [apply IH|].
  constructor; [|apply IH].
  rewrite distinct_values_In. simpl. tauto.
Qed.

Lemma set_insert_In (x w : value) (l : list value) :
  In w (set_insert x l) <-> w = x \/ In w l.
Proof.
  induction l as [|y l IH]; simpl; [intuition|].
  destruct (value_compare x y) eqn:E; simpl.
  - apply value_compare_eq in E. subst y. intuition.
  - intuition.
  - rewrite IH. intuition.
Qed.

Lemma frozenset_of_In (w : value) (l : list value) :
  In w (frozenset_of l) <-> In w l.
Proof.
  induction l as [|x l IH]; simpl; [reflexivity|].
  rewrite set_insert_In, IH. intuition.
Qed.

Lemma set_insert_sorted (x : value) (l : list value) :
  StronglySorted vlt l -> StronglySorted vlt (set_insert x l).
Proof.
  induction 1 as [|y l Hs IH Hy]; simpl.
  - repeat constructor.
  - destruct (value_compare x y) eqn:E.
    + constructor; assumption.
    + constructor; [constructor; assumption|].
      constructor; [exact E|].
      rewrite Forall_forall in *. intros w Hw.
      exact (vlt_trans _ _ _ E (Hy w Hw)).
    + constructor; [exact IH|].
      rewrite Forall_forall in *. intros w Hw.
      apply set_insert_In in Hw. destruct Hw as [->|Hw]; [|auto].
      unfold vlt. rewrite (value_compare_antisym x y), E. reflexivity.
Qed.

Lemma frozenset_of_sorted (l : list value) :
  StronglySorted vlt (frozenset_of l).
Proof.
  induction l as [|x l IH]; simpl; [constructor|].
  apply set_insert_sorted. exact IH.
Qed.

Lemma vlt_sorted_NoDup (l : list value) : StronglySorted vlt l -> NoDup l.
Proof.
  induction 1 as [|x l Hs IH Hx]; constructor; [|exact IH].
  intros Hin. rewrite Forall_forall in Hx.
  exact (vlt_irrefl x (Hx x Hin)).
Qed.

(** A set has one representation. *)
Lemma vlt_sorted_unique (l1 : list value) :
  forall l2,
    StronglySorted vlt l1 -> StronglySorted vlt l2 ->
    (forall w, In w l1 <-> In w l2) -> l1 = l2.
Proof.
  induction l1 as [|x l1 IH]; intros [|y l2] H1 H2 Hm.
  - reflexivity.
  - exfalso. apply (proj2 (Hm y)). left. reflexivity.
  - exfalso. apply (proj1 (Hm x)). left. reflexivity.
  - inversion H1 as [|? ? Hs1 Hx]; subst.
    inversion H2 as [|? ? Hs2 Hy]; subst.
    rewrite Forall_forall in Hx, Hy.
    assert (E : x = y).
    { destruct (proj1 (Hm x) (or_introl eq_refl)) as [E|Hin]; [auto|].
      destruct (proj2 (Hm y) (or_introl eq_refl)) as [E|Hin']; [auto|].
      exfalso.
      exact (vlt_irrefl _ (vlt_trans _ _ _ (Hx y Hin') (Hy x Hin))). }
    subst y. f_equal. apply IH; [assumption|assumption|].
    intros w. split; intros Hw.
    + destruct (proj1 (Hm w) (or_intror Hw)) as [E|Hin]; [|exact Hin].
      subst w. exfalso. exact (vlt_irrefl _ (Hx x Hw)).
    + destruct (proj2 (Hm w) (or_intror Hw)) as [E|Hin]; [|exact Hin].
      subst w. exfalso. exact (vlt_irrefl _ (Hy x Hw)).
Qed.

Lemma frozenset_of_ext (xs ys : list value) :
  (forall w, In w xs <-> In w ys) -> frozenset_of xs = frozenset_of ys.
Proof.
  intros H. apply vlt_sorted_unique; try apply frozenset_of_sorted.
  intros w. rewrite !frozenset_of_In. apply H.
Qed.

Lemma frozenset_of_length (l : list value) :
  NoDup l -> List.length (frozenset_of l) = List.length l.
Proof.
  intros H. apply Permutation_length. apply NoDup_Permutation.
  - apply vlt_sorted_NoDup, frozenset_of_sorted.
  - exact H.
  - intros w. apply frozenset_of_In.
Qed.

Lemma frozenset_of_hashable (l : list value) :
  forallb hashable l = true -> forallb hashable (frozenset_of l) = true.
Proof.
  rewrite !forallb_forall. intros H w Hw. apply H.
  apply frozenset_of_In. exact Hw.
Qed.

(** ** mergeduplicates *)

Lemma pyset_ok (xs vals : list value) :
  pyset xs = Ok vals ->
  NoDup vals /\ (forall v, In v vals <-> In v xs) /\
  forallb hashable vals = true.
Proof.
  unfold pyset. destruct (forallb hashable xs) eqn:H; [|discriminate].
  intros E. injection E as <-. split; [|split].
  - apply distinct_values_NoDup.
  - intros v. rewrite distinct_values_In. simpl. tauto.
  - rewrite forallb_forall in *. intros v Hv. apply H.
    apply distinct_values_In in Hv. tauto.
Qed.

Lemma normed_value_cases (missing : value) (vals : list value)
    (cell : value) :
  NoDup vals -> normed_value missing vals = Ok cell ->
  (exists v, vals = [v] /\ cell = v)
  \/ (vals = [] /\ cell = missing)
  \/ ((2 <= List.length vals)%nat /\ Conflict vals = Ok cell /\
      cell = VConflict (frozenset_of vals) /\
      List.length (frozenset_of vals) = List.length vals).
Proof.
  intros Hnd. unfold normed_value.
  destruct vals as [|a [|b vals]]; simpl.
  - intros E. injection E as <-. right. left. auto.
  - intros E. injection E as <-. left. eauto.
  - intros E. right. right. split; [lia|]. split; [exact E|].
    unfold Conflict in E.
    destruct (forallb hashable (a :: b :: vals)); [|discriminate].
    injection E as <-. split; [reflexivity|].
    apply (frozenset_of_length (a :: b :: vals) Hnd).
Qed.

(** C5: Conflicts are equal exactly when they have the same members, in
    whatever order these were given, so Conflict({1,2}) == Conflict({2,1});
    and the engine builds a Conflict for a field of a group only from two
    or more distinct values, all of which it holds: a single distinct
    value is emitted as itself and no value as the missing sentinel. *)
Theorem conflict_set_equality :
  Conflict [VInt 1; VInt 2] = Conflict [VInt 2; VInt 1] /\
  (forall xs ys c d,
      Conflict xs = Ok c -> Conflict ys = Ok d ->
      (py_eq c d = true <-> forall v, In v xs <-> In v ys)) /\
  (forall missing grp i vals cell,
      merged_values missing grp i = Ok vals ->
      normed_value missing vals = Ok cell ->
      (exists v, vals = [v] /\ cell = v)
      \/ (vals = [] /\ cell = missing)
      \/ ((2 <= List.length vals)%nat /\ Conflict vals = Ok cell /\
          exists members,
            cell = VConflict members /\
            List.length members = List.length vals /\
            forall v, In v members <-> In v vals)).
Proof.
  split; [reflexivity|]. split.
  - intros xs ys c d Hc Hd. unfold Conflict in Hc, Hd.
    destruct (forallb hashable xs); [|discriminate].
    destruct (forallb hashable ys); [|discriminate].
    injection Hc as <-. injection Hd as <-.
    rewrite py_eq_true. split.
    + intros E v. injection E as E.
      rewrite <- (frozenset_of_In v xs), <- (frozenset_of_In v ys), E.
      reflexivity.
    + intros H. f_equal. apply frozenset_of_ext. exact H.
  - intros missing grp i vals cell Hm Hn.
    apply pyset_ok in Hm. destruct Hm as [Hnd _].
    destruct (normed_value_cases missing vals cell Hnd Hn)
      as [H|[H|[H2 [Hc [-> Hl]]]]]; auto.
    right. right. split; [exact H2|]. split; [exact Hc|].
    exists (frozenset_of vals). split; [reflexivity|].
    split; [exact Hl|]. intros v. apply frozenset_of_In.
Qed.

Lemma mapM_Forall2 {A B : Type} (f : A -> result B) (l : list A) :
  forall ys, mapM f l = Ok ys -> Forall2 (fun x y => f x = Ok y) l ys.
Proof.
  induction l as [|x l IH]; simpl; intros ys H.
  - injection H as <-. constructor.
  - destruct (f x) as [y|e] eqn:Ex; simpl in H; [|discriminate].
    destruct (mapM f l) as [ys'|e]; simpl in H; [|discriminate].
    injection H as <-. constructor; [exact Ex|]. apply IH. reflexivity.
Qed.

Lemma Forall2_mapM {A B : Type} (f : A -> result B) (l : list A)
    (ys : list B) :
  Forall2 (fun x y => f x = Ok y) l ys -> mapM f l = Ok ys.
Proof.
  induction 1 as [|x y l ys Hx _ IH]; simpl; [reflexivity|].
  rewrite Hx, IH. reflexivity.
Qed.

Lemma mapM_total {A B : Type} (f : A -> result B) (l : list A) :
  Forall (fun x => exists y, f x = Ok y) l -> exists ys, mapM f l = Ok ys.
Proof.
  induction 1 as [|x l [y Hy] _ [ys IH]]; simpl; [eauto|].
  rewrite Hy, IH. simpl. eauto.
Qed.

Lemma yield_each_map {A B C : Type} (g : A -> B) (f : B -> result C)
    (l : list A) :
  yield_each f (map g l) = yield_each (fun x => f (g x)) l.
Proof.
  induction l as [|x l IH]; simpl; [reflexivity|].
  rewrite IH. reflexivity.
Qed.

(** A generator over a list yields the results for a prefix of the list,
    and for all of it unless it raises. *)
Lemma yield_each_prefix {A B : Type} (f : A -> result B) (l : list A) :
  Forall2 (fun x y => f x = Ok y)
          (firstn (List.length (yielded (yield_each f l))) l)
          (yielded (yield_each f l)) /\
  (raised (yield_each f l) = None ->
   List.length (yielded (yield_each f l)) = List.length l).
Proof.
  induction l as [|x l [IH1 IH2]]; simpl.
  - split; [constructor|reflexivity].
  - destruct (f x) as [y|e] eqn:Ex; simpl.
    + split; [constructor; assumption|]. intros H. f_equal. exact (IH2 H).
    + split; [constructor|discriminate].
Qed.

Lemma yield_each_total {A B : Type} (f : A -> result B) (l : list A) :
  Forall (fun x => exists y, f x = Ok y) l ->
  raised (yield_each f l) = None.
Proof.
  induction 1 as [|x l [y Hy] _ IH]; simpl; [reflexivity|].
  rewrite Hy. exact IH.
Qed.

Lemma yield_each_Forall2 {A B : Type} (f : A -> result B) (l : list A)
    (ys : list B) :
  Forall2 (fun x y => f x = Ok y) l ys ->
  yield_each f l = Stream ys None.
Proof.
  induction 1 as [|x y l ys Hx _ IH]; simpl; [reflexivity|].
  rewrite Hx, IH. reflexivity.
Qed.

Lemma index_In (flds : list string) (f : string) :
  In f flds -> exists i, index flds f = Ok i.
Proof.
  induction flds as [|g flds IH]; simpl; [contradiction|].
  intros H. unfold streq. destruct (String.eqb_spec g f) as [E|N]; [eauto|].
  destruct H as [H|H]; [contradiction|].
  destruct (IH H) as [i ->]. simpl. eauto.
Qed.

Lemma rowgroupby_whole_rows (t : table) (key : keyspec)
    (getkey : row -> value) :
  keygetter (header t) key = Ok getkey ->
  rowgroupby t key WholeRow
  = Ok (map (fun kg => (fst kg, map VTuple (snd kg)))
            (groupby getkey (body t))).
Proof.
  intros H. unfold rowgroupby. rewrite H. reflexivity.
Qed.

Lemma merged_values_spec (missing : value) (grp : list row) (i : nat)
    (vals : list value) :
  merged_values missing (map VTuple grp) i = Ok vals ->
  NoDup vals /\ (forall v, In v vals <-> contributed missing grp i v) /\
  forallb hashable vals = true.
Proof.
  intros H. apply pyset_ok in H. destruct H as [Hnd [Hin Hh]].
  split; [exact Hnd|]. split; [|exact Hh].
  intros v. rewrite Hin. rewrite in_map_iff. unfold contributed. split.
  - intros [r [Hv Hr]]. apply filter_In in Hr. destruct Hr as [Hr Hp].
    apply in_map_iff in Hr. destruct Hr as [r0 [<- Hr0]]. simpl in *.
    apply andb_true_iff in Hp. destruct Hp as [Hlen Hne].
    apply Nat.ltb_lt in Hlen. apply negb_true_iff, py_eq_false in Hne.
    exists r0. unfold getitem in *. subst v. auto.
  - intros [r [Hr [Hlen [Hv Hne]]]]. exists (VTuple r). simpl.
    split; [exact Hv|]. apply filter_In. split.
    + apply in_map. exact Hr.
    + simpl. apply andb_true_iff. split.
      * apply Nat.ltb_lt. exact Hlen.
      * apply negb_true_iff, py_eq_false. unfold getitem. rewrite Hv.
        exact Hne.
Qed.

Lemma merged_cell_ok (missing : value) (grp : list row) (i : nat)
    (vals : list value) (cell : value) :
  merged_values missing (map VTuple grp) i = Ok vals ->
  normed_value missing vals = Ok cell ->
  merged_cell missing grp i cell.
Proof.
  intros Hm Hn. apply merged_values_spec in Hm.
  destruct Hm as [Hnd [Hin _]].
  destruct (normed_value_cases missing vals cell Hnd Hn)
    as [[v [-> ->]]|[[-> ->]|[H2 [_ [-> _]]]]].
  - left. exists v. split; [apply Hin; left; reflexivity|].
    split; [|reflexivity]. intros w Hw. apply Hin in Hw.
    destruct Hw as [Hw|[]]. auto.
  - right. left. split; [|reflexivity]. intros w Hw.
    apply Hin in Hw. exact Hw.
  - right. right. split.
    + destruct vals as [|a [|b vals]]; simpl in H2; try lia.
      exists a, b. split; [apply Hin; simpl; auto|].
      split; [apply Hin; simpl; auto|].
      inversion Hnd as [|? ? Hna _]; subst. intros ->. apply Hna.
      left. reflexivity.
    + exists (frozenset_of vals). split; [reflexivity|]. split.
      * apply vlt_sorted_NoDup, frozenset_of_sorted.
      * intros w. rewrite frozenset_of_In. apply Hin.
Qed.

Lemma Forall2_compose {A B C : Type} (P : A -> B -> Prop)
    (Q : B -> C -> Prop) (R : A -> C -> Prop) :
  (forall a b c, P a b -> Q b c -> R a c) ->
  forall la lb lc, Forall2 P la lb -> Forall2 Q lb lc -> Forall2 R la lc.
Proof.
  intros H la lb lc HP. revert lc.
  induction HP as [|a b la lb Hab _ IH]; intros lc HQ;
    inversion HQ; subst; constructor; eauto.
Qed.

Lemma merge_group_spec (key : keyspec) (missing : value)
    (idxs : list nat) (k : value) (g : list row) (r : row) :
  merge_group key missing idxs (k, map VTuple g) = Ok r ->
  exists kc cs,
    key_cells key k = Ok kc /\ r = kc ++ cs /\
    Forall2 (merged_cell missing g) idxs cs.
Proof.
  unfold merge_group. simpl.
  destruct (key_cells key k) as [kc|e]; simpl; [|discriminate].
  destruct (mapM (merged_values missing (map VTuple g)) idxs)
    as [mv|e] eqn:Hm; simpl; [|discriminate].
  destruct (mapM (normed_value missing) mv) as [cs|e] eqn:Hn; simpl;
    [|discriminate].
  intros E. injection E as <-. exists kc, cs.
  split; [reflexivity|]. split; [reflexivity|].
  apply mapM_Forall2 in Hm, Hn.
  eapply Forall2_compose; [|exact Hm|exact Hn].
  intros i vals cell. apply merged_cell_ok.
Qed.

Lemma normed_value_total (missing : value) (vals : list value) :
  forallb hashable vals = true ->
  exists cell, normed_value missing vals = Ok cell.
Proof.
  intros H. unfold normed_value.
  destruct vals as [|a [|b vals]]; simpl; eauto.
  unfold Conflict. rewrite H. eauto.
Qed.

Lemma merged_values_total (missing : value) (g : list row) (i : nat) :
  Forall (Forall (fun v => hashable v = true)) g ->
  exists vals, merged_values missing (map VTuple g) i = Ok vals.
Proof.
  intros H. unfold merged_values, pyset.
  match goal with |- context [forallb hashable ?l] =>
    assert (E : forallb hashable l = true) end.
  { apply forallb_forall. intros v Hv. apply in_map_iff in Hv.
    destruct Hv as [r [<- Hr]]. apply filter_In in Hr.
    destruct Hr as [Hr Hp]. apply in_map_iff in Hr.
    destruct Hr as [r0 [<- Hr0]]. simpl in *.
    apply andb_true_iff in Hp. destruct Hp as [Hlen _].
    apply Nat.ltb_lt in Hlen. rewrite Forall_forall in H.
    specialize (H r0 Hr0). rewrite Forall_forall in H. apply H.
    unfold getitem. apply nth_In. exact Hlen. }
  rewrite E. eauto.
Qed.

Lemma merge_group_total (key : keyspec) (missing : value)
    (idxs : list nat) (k : value) (g : list row) :
  (exists kc, key_cells key k = Ok kc) ->
  Forall (Forall (fun v => hashable v = true)) g ->
  exists r, merge_group key missing idxs (k, map VTuple g) = Ok r.
Proof.
  intros [kc Hk] Hg. unfold merge_group. simpl. rewrite Hk. simpl.
  destruct (mapM_total (merged_values missing (map VTuple g)) idxs)
    as [mv Hm].
  { apply Forall_forall. intros i _. apply merged_values_total. exact Hg. }
  rewrite Hm. simpl.
  destruct (mapM_total (normed_value missing) mv) as [cs Hn].
  { apply mapM_Forall2 in Hm. clear -Hm.
    induction Hm as [|i vals idxs mv Hi _ IH]; constructor; [|exact IH].
    apply normed_value_total.
    destruct g as [|r g].
    - unfold merged_values in Hi. simpl in Hi. apply pyset_ok in Hi. tauto.
    - apply pyset_ok in Hi. tauto. }
  rewrite Hn. simpl. eauto.
Qed.

(** The cells a key contributes to an output row. *)
Lemma keygetter_cells (hdr : list string) (key : keyspec)
    (getkey : row -> value) (keyflds : list string) :
  keygetter hdr key = Ok getkey -> key_fields key = Ok keyflds ->
  exists idxs,
    mapM (field_index hdr) keyflds = Ok idxs /\
    forall r, key_cells key (getkey r) = Ok (map (getitem r) idxs).
Proof.
  destruct key as [f|fs|g]; simpl; intros Hk Hf; try discriminate;
    injection Hf as <-; simpl.
  - destruct (field_index hdr f) as [i|e]; simpl in *; [|discriminate].
    injection Hk as <-. exists [i]. split; reflexivity.
  - destruct (mapM (field_index hdr) fs) as [idxs|e]; simpl in *;
      [|discriminate].
    injection Hk as <-. exists idxs. split; reflexivity.
Qed.

Lemma groupby_members {A : Type} (getkey : A -> value) (l : list A)
    (k : value) (g : list A) (x : A) :
  In (k, g) (groupby getkey l) -> In x g -> In x l.
Proof.
  revert k g. induction l as [|y l IH]; simpl; intros k g; [tauto|].
  destruct (groupby getkey l) as [|[k' g'] rest]; simpl in *.
  - intros [E|[]] Hx. injection E as <- <-. destruct Hx as [Hx|[]]. auto.
  - destruct (py_eq (getkey y) k'); simpl.
    + intros [E|Hin] Hx.
      * injection E as <- <-. destruct Hx as [Hx|Hx]; [auto|].
        right. exact (IH k' g' (or_introl eq_refl) Hx).
      * right. exact (IH k g (or_intror Hin) Hx).
    + intros [E|Hin] Hx.
      * injection E as <- <-. destruct Hx as [Hx|[]]. auto.
      * right. exact (IH k g Hin Hx).
Qed.

Lemma valfld_indexes (hdr keyflds : list string) :
  exists idxs,
    mapM (index hdr) (filter (fun f => negb (contains keyflds f)) hdr)
    = Ok idxs.
Proof.
  apply mapM_total. apply Forall_forall. intros f Hf.
  apply filter_In in Hf. apply index_In. tauto.
Qed.

Lemma itermergeduplicates_unfold (src : source) (t : table)
    (key : keyspec) (missing : value) (getkey : row -> value)
    (keyflds : list string) (idxs : list nat) :
  iter_source src = Ok t ->
  keygetter (header t) key = Ok getkey ->
  key_fields key = Ok keyflds ->
  mapM (index (header t))
       (filter (fun f => negb (contains keyflds f)) (header t)) = Ok idxs ->
  itermergeduplicates src key missing
  = Emit (keyflds ++ filter (fun f => negb (contains keyflds f)) (header t))
      (yield_each
         (fun kg => merge_group key missing idxs
                      (fst kg, map VTuple (snd kg)))
         (groupby getkey (body t))).
Proof.
  intros Hs Hk Hf Hi. unfold itermergeduplicates, iterpeek.
  rewrite Hs. simpl. rewrite Hf, Hi. f_equal.
  unfold rowgroupby_source. simpl.
  rewrite (rowgroupby_whole_rows t key getkey Hk). simpl.
  apply yield_each_map.
Qed.

Lemma Forall2_with_left {A B : Type} (P : A -> Prop) (R : A -> B -> Prop)
    (l : list A) (l' : list B) :
  Forall P l -> Forall2 R l l' ->
  Forall2 (fun a b => P a /\ R a b) l l'.
Proof.
  intros HP HR. induction HR as [|a b l l' Hab _ IH]; [constructor|].
  inversion HP; subst. constructor; auto.
Qed.

Lemma index_first (hdr : list string) (f : string) (i : nat) :
  index hdr f = Ok i -> first_position hdr f i.
Proof.
  revert i. induction hdr as [|g hdr IH]; simpl; intros i H;
    [discriminate|].
  unfold streq in H. destruct (String.eqb_spec g f) as [E|N].
  - injection H as <-. subst g. split; [reflexivity|]. intros j Hj. lia.
  - destruct (index hdr f) as [i'|e]; simpl in H; [|discriminate].
    injection H as <-. destruct (IH i' eq_refl) as [H1 H2].
    split; [exact H1|]. intros [|j] Hj; simpl.
    + intros E. injection E as E. contradiction.
    + apply H2. lia.
Qed.

Lemma field_index_first (hdr : list string) (f : string) (i : nat) :
  field_index hdr f = Ok i -> first_position hdr f i.
Proof.
  unfold field_index. destruct (index hdr f) as [i'|e] eqn:E;
    [|discriminate].
  intros H. injection H as <-. exact (index_first hdr f i' E).
Qed.

(** The cells a key puts in an output row are the key value(s), which
    are what the row holds at the first positions of the key fields. *)
Lemma key_cells_values (hdr : list string) (key : keyspec)
    (getkey : row -> value) (kf : list string) :
  keygetter hdr key = Ok getkey -> key_fields key = Ok kf ->
  forall x kc,
    key_cells key (getkey x) = Ok kc ->
    key_values key (getkey x) kc /\
    Forall2
      (fun f c => exists i, first_position hdr f i /\ c = nth i x VNone)
      kf kc.
Proof.
  destruct key as [f|fs|g]; simpl; intros Hk Hf; try discriminate;
    injection Hf as <-.
  - destruct (field_index hdr f) as [i|e] eqn:Hi; simpl in Hk;
      [|discriminate].
    injection Hk as <-. intros x kc E. injection E as <-.
    split; [reflexivity|]. constructor; [|constructor].
    exists i. split; [exact (field_index_first hdr f i Hi)|reflexivity].
  - destruct (mapM (field_index hdr) fs) as [idxs|e] eqn:Hm; simpl in Hk;
      [|discriminate].
    injection Hk as <-. intros x kc E. simpl in E. injection E as <-.
    split; [reflexivity|]. apply mapM_Forall2 in Hm.
    induction Hm as [|f i fs idxs Hi _ IH]; simpl; constructor;
      [|exact IH].
    exists i. split; [exact (field_index_first hdr f i Hi)|reflexivity].
Qed.

(** C1 as stated fails where a name occurs twice in the header: both
    fields of that name get the cell merged from the first of the two
    columns.  Under the header ('k', 'v', 'v') the row (1, 7, 8) gives
    (1, 7, 7), and 7 is not what the third column holds. *)
Lemma mergeduplicates_repeated_field_name :
  MergeDuplicatesView_iter
    (mergeduplicates
       (Table ["k"; "v"; "v"] [[VInt 1; VInt 7; VInt 8]])
       (KeyField "k") VNone false)
  = Emit ["k"; "v"; "v"] (Stream [[VInt 1; VInt 7; VInt 7]] None) /\
  ~ merged_cell VNone [[VInt 1; VInt 7; VInt 8]] 2 (VInt 7).
Proof.
  split; [reflexivity|].
  assert (Hc : forall v, contributed VNone [[VInt 1; VInt 7; VInt 8]] 2 v
                         <-> v = VInt 8).
  { intros v. unfold contributed. split.
    - intros [r [[<-|[]] [_ [Hv _]]]]. simpl in Hv. congruence.
    - intros ->. exists [VInt 1; VInt 7; VInt 8]. simpl.
      repeat split; auto; discriminate. }
  intros [[v [Hv [_ E]]]|[[Hno _]|[_ [m [E _]]]]].
  - apply Hc in Hv. congruence.
  - apply (Hno (VInt 8)). apply Hc. reflexivity.
  - discriminate E.
Qed.

(** C1, amended: the data rows of [mergeduplicates] correspond, in
    order, to the groups of the (sorted) table.  Each starts with the
    group's key value(s), which every row of the group holds at the key
    fields, followed by one cell per non-key header field: with the
    values taken at the first position of the header that has the
    field's name, the cell is the single value the group's rows
    contribute there (a row contributes where it is long enough and
    does not hold the missing sentinel), the missing sentinel when no
    row contributes, and a Conflict of all the contributed values when
    they are several.  Every group gets its row unless an exception
    stops the iteration, which cannot happen when all cells are
    hashable. *)
Theorem mergeduplicates_rows :
  forall (tbl : table) (key : keyspec) (missing : value) (presorted : bool)
         (t : table) (getkey : row -> value) (keyflds : list string),
    iter_source (sorted_unless presorted tbl key) = Ok t ->
    keygetter (header t) key = Ok getkey ->
    key_fields key = Ok keyflds ->
    let valflds := filter (fun f => negb (contains keyflds f)) (header t) in
    let groups := groupby getkey (body t) in
    exists rows,
      MergeDuplicatesView_iter (mergeduplicates tbl key missing presorted)
      = Emit (keyflds ++ valflds) rows /\
      Forall2
        (fun kg r =>
           exists kc cs,
             r = kc ++ cs /\
             key_values key (fst kg) kc /\
             snd kg <> [] /\
             (forall x, In x (snd kg) ->
                getkey x = fst kg /\
                Forall2
                  (fun f c => exists i, first_position (header t) f i /\
                                        c = nth i x VNone)
                  keyflds kc) /\
             Forall2
               (fun f cell =>
                  exists i, first_position (header t) f i /\
                            merged_cell missing (snd kg) i cell)
               valflds cs)
        (firstn (List.length (yielded rows)) groups) (yielded rows) /\
      (raised rows = None ->
       List.length (yielded rows) = List.length groups) /\
      (Forall (Forall (fun v => hashable v = true)) (body t) ->
       raised rows = None).
Proof.
  intros tbl key missing presorted t getkey keyflds Hs Hk Hf valflds groups.
  destruct (valfld_indexes (header t) keyflds) as [idxs Hi].
  fold valflds in Hi.
  eexists. split.
  { unfold MergeDuplicatesView_iter, mergeduplicates,
      MergeDuplicatesView_init. simpl.
    exact (itermergeduplicates_unfold _ t key missing getkey keyflds idxs
             Hs Hk Hf Hi). }
  fold groups.
  set (f := fun kg : value * list row =>
              merge_group key missing idxs (fst kg, map VTuple (snd kg))).
  destruct (yield_each_prefix f groups) as [Hp Hr].
  pose proof (groupby_groups getkey (body t)) as Hg. fold groups in Hg.
  split; [|split].
  - assert (Hg' : Forall
              (fun kg : value * list row =>
                 snd kg <> [] /\
                 Forall (fun x => getkey x = fst kg) (snd kg))
              (firstn (List.length (yielded (yield_each f groups)))
                      groups)).
    { generalize (List.length (yielded (yield_each f groups))).
      clear -Hg. induction Hg as [|kg gs Hkg _ IH]; intros [|n]; simpl;
        constructor; auto. }
    eapply Forall2_impl; [|exact (Forall2_with_left _ _ _ _ Hg' Hp)].
    clear Hp Hr Hg Hg'. intros [k g] r [[Hne Hkeys] Hm]. simpl in *.
    unfold f in Hm. simpl in Hm.
    apply merge_group_spec in Hm. destruct Hm as [kc [cs [H1 [H2 H3]]]].
    exists kc, cs. split; [exact H2|].
    destruct g as [|x0 g]; [exfalso; apply Hne; reflexivity|].
    assert (Hx0 : getkey x0 = k) by (inversion Hkeys; assumption).
    split.
    { rewrite <- Hx0 in H1 |- *.
      exact (proj1 (key_cells_values _ _ _ _ Hk Hf x0 kc H1)). }
    split; [discriminate|]. split.
    { intros x Hx. rewrite Forall_forall in Hkeys.
      pose proof (Hkeys x Hx) as Hkx. split; [exact Hkx|].
      rewrite <- Hkx in H1.
      exact (proj2 (key_cells_values _ _ _ _ Hk Hf x kc H1)). }
    apply mapM_Forall2 in Hi.
    eapply Forall2_compose; [|exact Hi|exact H3].
    intros fld i cell Hfi Hc. exists i.
    split; [exact (index_first _ _ _ Hfi)|exact Hc].
  - exact Hr.
  - intros Hh. apply yield_each_total.
    assert (Hall : Forall (fun kg : value * list row =>
                             Forall (Forall (fun v => hashable v = true))
                                    (snd kg)) groups).
    { apply Forall_forall. intros [k g] Hkg. simpl.
      apply Forall_forall. intros r Hr'. rewrite Forall_forall in Hh.
      apply Hh. exact (groupby_members getkey (body t) k g r Hkg Hr'). }
    destruct (keygetter_cells _ _ _ _ Hk Hf) as [kidx [_ Hkc]].
    rewrite Forall_forall in *. intros [k g] Hkg.
    destruct (Hg _ Hkg) as [Hne Hkeys]. simpl in *.
    unfold f. simpl. apply merge_group_total.
    + destruct g as [|x g]; [exfalso; apply Hne; reflexivity|].
      inversion Hkeys as [|? ? Hx _]; subst. eauto.
    + exact (Hall _ Hkg).
Qed.

Lemma mergeduplicates_rows_witness :
  exists rows,
    MergeDuplicatesView_iter
      (mergeduplicates merge_example_table (KeyField "foo") VNone false)
    = Emit ["foo"; "bar"; "baz"] rows /\
    raised rows = None.
Proof.
  destruct (mergeduplicates_rows merge_example_table (KeyField "foo") VNone
              false
              (Table ["foo"; "bar"; "baz"]
                 (sort_rows (fun r => getitem r 0)
                    (body merge_example_table)))
              (fun r => getitem r 0) ["foo"] eq_refl eq_refl eq_refl)
    as [rows [H1 [_ [_ H4]]]].
  exists rows. split; [exact H1|].
  apply H4. simpl. repeat constructor.
Defined.

(** Missing-value precedence, on the rows of the specification (with an
    integer standing for the decimal fraction): ('B', 2, None) and
    ('B', None, 78) merge into ('B', 2, 78). *)
Example merge_missing_precedence :
  MergeDuplicatesView_iter
    (mergeduplicates
       (Table ["foo"; "bar"; "baz"]
          [[VStr "B"; VInt 2; VNone]; [VStr "B"; VNone; VInt 78]])
       (KeyField "foo") VNone false)
  = Emit ["foo"; "bar"; "baz"]
      (Stream [[VStr "B"; VInt 2; VInt 78]] None).
Proof. reflexivity. Qed.

(** ** rowreduce *)






Example rowreduce_example :
  RowReduceView_iter
    (rowreduce rowreduce_example_table (KeyField "foo") count_rows None
       false)
  = Emit ["foo"; "bar"]
      (Stream [[VStr "a"; VInt 2]; [VStr "b"; VInt 3]; [VStr "c"; VInt 1]]
         None).
Proof. reflexivity. Qed.

(** ** Re-applying mergeduplicates *)

Lemma contains_In (flds : list string) (f : string) :
  contains flds f = true <-> In f flds.
Proof.
  unfold contains. rewrite existsb_exists. split.
  - intros [g [Hg E]]. apply String.eqb_eq in E. subst g. exact Hg.
  - intros H. exists f. split; [exact H|apply String.eqb_refl].
Qed.

Lemma yield_each_done {A B : Type} (f : A -> result B) (l : list A) :
  forall ys, yield_each f l = Stream ys None ->
             Forall2 (fun x y => f x = Ok y) l ys.
Proof.
  induction l as [|x l IH]; simpl; intros ys H.
  - injection H as <-. constructor.
  - destruct (f x) as [y|e] eqn:Ex; [|discriminate].
    unfold cons_yield in H. injection H as <- Hr.
    constructor; [exact Ex|]. apply IH.
    destruct (yield_each f l) as [ys' r']. simpl in *. subst r'.
    reflexivity.
Qed.

(** Where a name is found in a header that starts with the names [ns],
    and what a row laid out along [ns] holds there. *)
Lemma index_prefix (phi : string -> value) (ns rn : list string)
    (rv : list value) (f : string) :
  In f ns ->
  exists p, index (ns ++ rn) f = Ok p /\
            nth p (map phi ns ++ rv) VNone = phi f.
Proof.
  induction ns as [|g ns IH]; simpl; [contradiction|].
  intros H. unfold streq. destruct (String.eqb_spec g f) as [E|N].
  - subst g. exists O. split; reflexivity.
  - destruct H as [H|H]; [contradiction|].
    destruct (IH H) as [p [Hp Hn]]. exists (S p). rewrite Hp.
    split; [reflexivity|exact Hn].
Qed.

Lemma index_suffix (psi : string -> value) (kf vf : list string)
    (f : string) :
  In f vf -> ~ In f kf ->
  exists q, index (kf ++ vf) f = Ok q /\
            forall kc, List.length kc = List.length kf ->
                       (q < List.length (kc ++ map psi vf))%nat /\
                       nth q (kc ++ map psi vf) VNone = psi f.
Proof.
  intros Hv. induction kf as [|g kf IH]; simpl; intros Hk.
  - destruct (index_prefix psi vf [] [] f Hv) as [p [Hp Hn]].
    rewrite !app_nil_r in *. exists p. split; [exact Hp|].
    intros [|c kc] Hl; [|discriminate]. simpl. split; [|exact Hn].
    rewrite length_map. clear -Hp. revert p Hp.
    induction vf as [|g vf IH]; simpl; intros p Hp; [discriminate|].
    destruct (streq g f).
    + injection Hp as <-. lia.
    + destruct (index vf f) as [i|e]; simpl in Hp; [|discriminate].
      injection Hp as <-. specialize (IH i eq_refl). lia.
  - unfold streq. destruct (String.eqb_spec g f) as [E|N].
    + exfalso. apply Hk. left. exact E.
    + destruct IH as [q [Hq Hn]]; [tauto|]. exists (S q). rewrite Hq.
      split; [reflexivity|]. intros [|c kc] Hl; [discriminate|].
      simpl in Hl. injection Hl as Hl. destruct (Hn kc Hl) as [H1 H2].
      simpl. split; [lia|exact H2].
Qed.

Lemma Forall2_unwrap {A B : Type} (F : A -> result B) (d : B)
    (l : list A) (ys : list B) :
  Forall2 (fun x y => F x = Ok y) l ys ->
  ys = map (fun x => match F x with Ok y => y | Raise _ => d end) l.
Proof.
  induction 1 as [|x y l ys Hx _ IH]; simpl; [reflexivity|].
  rewrite Hx, <- IH. reflexivity.
Qed.

Lemma field_index_index (hdr : list string) (f : string) (i : nat) :
  index hdr f = Ok i -> field_index hdr f = Ok i.
Proof. unfold field_index. intros ->. reflexivity. Qed.

(** The key of a row of the output, under the header of the output, is
    the key of the group the row was merged from. *)
Lemma rekey (hdr : list string) (key : keyspec) (getkey : row -> value)
    (kf vf : list string) :
  keygetter hdr key = Ok getkey -> key_fields key = Ok kf ->
  exists getkey1,
    keygetter (kf ++ vf) key = Ok getkey1 /\
    forall x kc cs,
      key_cells key (getkey x) = Ok kc -> getkey1 (kc ++ cs) = getkey x.
Proof.
  intros Hk Hf.
  destruct (keygetter_cells hdr key getkey kf Hk Hf) as [kidx [Hm Hc]].
  assert (Hphi : forall x, map (getitem x) kidx
                 = map (fun f => getitem x
                                   match field_index hdr f with
                                   | Ok i => i
                                   | Raise _ => O
                                   end) kf).
  { intros x. apply mapM_Forall2 in Hm.
    rewrite (Forall2_unwrap (field_index hdr) O kf kidx Hm).
    rewrite map_map. reflexivity. }
  assert (Hself : forall l, incl l kf ->
            exists idxs1,
              mapM (field_index (kf ++ vf)) l = Ok idxs1 /\
              forall (phi : string -> value) rv,
                map (getitem (map phi kf ++ rv)) idxs1 = map phi l).
  { induction l as [|f l IH]; intros Hincl.
    - exists []. split; reflexivity.
    - destruct IH as [idxs1 [H1 H2]].
      { intros z Hz. apply Hincl. right. exact Hz. }
      assert (Hin : In f kf) by (apply Hincl; left; reflexivity).
      destruct (index_prefix (fun _ => VNone) kf vf [] f Hin) as [p [Hp _]].
      exists (p :: idxs1). simpl.
      rewrite (field_index_index _ _ _ Hp), H1. split; [reflexivity|].
      intros phi rv. simpl. rewrite H2. f_equal.
      destruct (index_prefix phi kf vf rv f Hin) as [p' [Hp' Hn]].
      rewrite Hp in Hp'. injection Hp' as <-. exact Hn. }
  destruct (Hself kf (incl_refl kf)) as [idxs1 [H1 H2]].
  destruct key as [f|fs|g]; simpl in *; try discriminate;
    injection Hf as <-.
  - exists (fun r => getitem r O). split.
    + unfold field_index. simpl. unfold streq. rewrite String.eqb_refl.
      reflexivity.
    + intros x kc cs Hkc. injection Hkc as <-. reflexivity.
  - rewrite H1. simpl.
    exists (fun r => VTuple (map (getitem r) idxs1)). split; [reflexivity|].
    intros x kc cs Hkc. rewrite Hc in Hkc. injection Hkc as <-.
    rewrite Hphi, H2, <- Hphi.
    destruct (mapM (field_index hdr) fs) as [idxs|e]; simpl in *;
      [|discriminate].
    injection Hk as <-. injection Hm as <-. reflexivity.
Qed.

Lemma normed_cell_hashable (missing : value) (vals : list value)
    (c : value) :
  forallb hashable vals = true -> normed_value missing vals = Ok c ->
  c = missing \/ hashable c = true.
Proof.
  intros H. unfold normed_value.
  destruct vals as [|a [|b vals]]; simpl.
  - intros E. injection E as <-. left. reflexivity.
  - intros E. injection E as <-. right. simpl in H.
    apply andb_true_iff in H. tauto.
  - unfold Conflict. rewrite H. intros E. injection E as <-. right.
    exact (frozenset_of_hashable _ H).
Qed.

(** The shape of a merged row: the key cells, then one cell per value
    field, the same for equal field names, each the missing sentinel or
    hashable. *)
Lemma merge_group_shape (key : keyspec) (missing : value)
    (hdr vf : list string) (idxs : list nat) (k : value)
    (g : list value) (r kc : row) :
  key_cells key k = Ok kc ->
  Forall2 (fun f i => index hdr f = Ok i) vf idxs ->
  merge_group key missing idxs (k, g) = Ok r ->
  exists psi : string -> value,
    r = kc ++ map psi vf /\
    forall f, psi f = missing \/ hashable (psi f) = true.
Proof.
  intros Hkc Hi. unfold merge_group. simpl. rewrite Hkc. simpl.
  destruct (mapM (merged_values missing g) idxs) as [mv|e] eqn:Hm; simpl;
    [|discriminate].
  destruct (mapM (normed_value missing) mv) as [cs|e] eqn:Hn; simpl;
    [|discriminate].
  intros E. injection E as <-.
  set (cellR := fun f =>
                  i <- index hdr f ;;
                  m <- merged_values missing g i ;;
                  normed_value missing m).
  exists (fun f => match cellR f with Ok c => c | Raise _ => missing end).
  split.
  - f_equal. apply Forall2_unwrap.
    apply mapM_Forall2 in Hm, Hn.
    assert (H1 : Forall2 (fun f m => exists i, index hdr f = Ok i /\
                                      merged_values missing g i = Ok m)
                         vf mv).
    { eapply Forall2_compose; [|exact Hi|exact Hm].
      intros f0 i0 m0 Hf0 Hm0. exists i0. split; assumption. }
    eapply Forall2_compose; [|exact H1|exact Hn].
    intros f m c [i [Hf Hmv]] Hc. unfold cellR. rewrite Hf. simpl.
    rewrite Hmv. simpl. exact Hc.
  - intros f. unfold cellR.
    destruct (index hdr f) as [i|e]; simpl; [|auto].
    destruct (merged_values missing g i) as [m|e] eqn:Hmv; simpl; [|auto].
    destruct (normed_value missing m) as [c|e] eqn:Hc; [|auto].
    apply pyset_ok in Hmv. destruct Hmv as [_ [_ Hh]].
    exact (normed_cell_hashable missing m c Hh Hc).
Qed.

(** Merging a group that holds a single merged row gives the row back. *)
Lemma remerge (key : keyspec) (missing : value) (kf vf : list string)
    (k : value) (kc : row) (psi : string -> value) (idxs2 : list nat) :
  key_cells key k = Ok kc ->
  List.length kc = List.length kf ->
  (forall f, In f vf -> ~ In f kf) ->
  (forall f, psi f = missing \/ hashable (psi f) = true) ->
  mapM (index (kf ++ vf)) vf = Ok idxs2 ->
  merge_group key missing idxs2 (k, [VTuple (kc ++ map psi vf)])
  = Ok (kc ++ map psi vf).
Proof.
  intros Hkc Hlen Hdisj Hpsi Hi.
  set (r := kc ++ map psi vf).
  set (M := fun f => if py_eq (psi f) missing then [] else [psi f]).
  assert (Hone : forall f i,
             In f vf -> index (kf ++ vf) f = Ok i ->
             merged_values missing [VTuple r] i = Ok (M f) /\
             normed_value missing (M f) = Ok (psi f)).
  { intros f i Hf Hfi.
    destruct (index_suffix psi kf vf f Hf (Hdisj f Hf)) as [q [Hq Hn]].
    rewrite Hfi in Hq. injection Hq as <-.
    destruct (Hn kc Hlen) as [Hlt Hnth]. fold r in Hlt, Hnth.
    unfold merged_values, M. simpl. unfold getitem. rewrite Hnth.
    apply Nat.ltb_lt in Hlt. rewrite Hlt. simpl.
    destruct (py_eq (psi f) missing) eqn:E; simpl.
    - apply py_eq_true in E. split; [reflexivity|].
      unfold normed_value. simpl. rewrite E. reflexivity.
    - destruct (Hpsi f) as [Hp|Hp].
      + apply py_eq_false in E. contradiction.
      + unfold getitem. rewrite Hnth. unfold pyset. simpl. rewrite Hp.
        simpl. split; reflexivity. }
  assert (Hall : forall l idxs,
             incl l vf ->
             Forall2 (fun f i => index (kf ++ vf) f = Ok i) l idxs ->
             mapM (merged_values missing [VTuple r]) idxs = Ok (map M l) /\
             mapM (normed_value missing) (map M l) = Ok (map psi l)).
  { intros l idxs Hincl HF.
    induction HF as [|f i l idxs Hfi _ IH]; simpl.
    - split; reflexivity.
    - destruct IH as [IH1 IH2].
      { intros z Hz. apply Hincl. right. exact Hz. }
      destruct (Hone f i (Hincl f (or_introl eq_refl)) Hfi) as [H1 H2].
      rewrite H1, IH1, H2, IH2. split; reflexivity. }
  destruct (Hall vf idxs2 (incl_refl vf) (mapM_Forall2 _ _ _ Hi))
    as [H1 H2].
  unfold merge_group. simpl. rewrite Hkc. simpl.
  fold r. rewrite H1. simpl. rewrite H2. reflexivity.
Qed.

Lemma itermergeduplicates_inv (src : source) (key : keyspec)
    (missing : value) (hdr1 : list string) (rows1 : list row) :
  itermergeduplicates src key missing = Emit hdr1 (Stream rows1 None) ->
  exists t getkey kf idxs,
    iter_source src = Ok t /\
    keygetter (header t) key = Ok getkey /\
    key_fields key = Ok kf /\
    mapM (index (header t))
         (filter (fun f => negb (contains kf f)) (header t)) = Ok idxs /\
    hdr1 = kf ++ filter (fun f => negb (contains kf f)) (header t) /\
    Forall2
      (fun kg r =>
         merge_group key missing idxs (fst kg, map VTuple (snd kg)) = Ok r)
      (groupby getkey (body t)) rows1.
Proof.
  intros H.
  destruct (iter_source src) as [t|e] eqn:Hs.
  2:{ unfold itermergeduplicates, iterpeek in H. rewrite Hs in H.
      discriminate H. }
  destruct (key_fields key) as [kf|e] eqn:Hf.
  2:{ unfold itermergeduplicates, iterpeek in H. rewrite Hs in H.
      simpl in H. rewrite Hf in H. discriminate H. }
  destruct (valfld_indexes (header t) kf) as [idxs Hi].
  destruct (keygetter (header t) key) as [getkey|e] eqn:Hk.
  - rewrite (itermergeduplicates_unfold src t key missing getkey kf idxs
               Hs Hk Hf Hi) in H.
    injection H as Hh Hy. exists t, getkey, kf, idxs.
    repeat (split; [first [reflexivity|assumption|symmetry; assumption]|]).
    apply yield_each_done. exact Hy.
  - unfold itermergeduplicates, iterpeek in H. rewrite Hs in H.
    simpl in H. rewrite Hf, Hi in H.
    unfold rowgroupby_source, rowgroupby in H. simpl in H.
    rewrite Hk in H. simpl in H. discriminate H.
Qed.

Lemma sorted_by_keys (gk : row -> value) (l : list row) :
  StronglySorted vlt (map gk l) -> StronglySorted (key_le gk) l.
Proof.
  induction l as [|x l IH]; simpl; intros H; [constructor|].
  inversion H as [|? ? Hs Hx]; subst. constructor; [auto|].
  rewrite Forall_forall in *. intros y Hy. unfold key_le.
  apply value_leb_cases. left. apply Hx. apply in_map. exact Hy.
Qed.

Lemma vlt_sorted_adjacent (l : list value) :
  StronglySorted vlt l -> Sorted (fun a b => a <> b) l.
Proof.
  induction 1 as [|x l Hs IH Hx]; constructor; [exact IH|].
  destruct l as [|y l]; constructor.
  inversion Hx as [|? ? Hy _]; subst. exact (vlt_neq _ _ Hy).
Qed.

Lemma yield_each_fixed {A : Type} (f : A -> result A) (l : list A) :
  Forall (fun x => f x = Ok x) l -> yield_each f l = Stream l None.
Proof.
  induction 1 as [|x l Hx _ IH]; simpl; [reflexivity|].
  rewrite Hx, IH. reflexivity.
Qed.

Lemma filter_value_fields (kf hdr : list string) :
  let vf := filter (fun f => negb (contains kf f)) hdr in
  filter (fun f => negb (contains kf f)) (kf ++ vf) = vf /\
  forall f, In f vf -> ~ In f kf.
Proof.
  intros vf.
  assert (Hd : forall f, In f vf -> ~ In f kf).
  { intros f Hf. unfold vf in Hf. apply filter_In in Hf.
    destruct Hf as [_ Hf]. apply negb_true_iff in Hf. intros Hin.
    apply contains_In in Hin. congruence. }
  split; [|exact Hd].
  rewrite filter_app.
  replace (filter (fun f => negb (contains kf f)) kf) with (@nil string).
  - simpl. apply forallb_filter_id. apply forallb_forall. intros f Hf.
    apply negb_true_iff. destruct (contains kf f) eqn:E; [|reflexivity].
    apply contains_In in E. exfalso. exact (Hd f Hf E).
  - symmetry. apply filter_none. intros f Hf.
    apply negb_false_iff. apply contains_In. exact Hf.
Qed.

(** C2: when [mergeduplicates] has run to completion, applying it again
    to its output with the same key and missing sentinel yields the same
    header and the same rows (the second view may be built without
    [presorted] only if the first was: the output of a sorted pass is in
    key order). *)
Theorem mergeduplicates_idempotent :
  forall (tbl : table) (key : keyspec) (missing : value)
         (presorted1 presorted2 : bool) (out : table),
    (presorted1 = true -> presorted2 = true) ->
    as_table
      (MergeDuplicatesView_iter
         (mergeduplicates tbl key missing presorted1)) = Some out ->
    MergeDuplicatesView_iter (mergeduplicates out key missing presorted2)
    = MergeDuplicatesView_iter (mergeduplicates tbl key missing presorted1).
Proof.
  intros tbl key missing ps1 ps2 out Hps Hout.
  unfold MergeDuplicatesView_iter, mergeduplicates,
    MergeDuplicatesView_init in *. simpl in *.
  destruct (itermergeduplicates (sorted_unless ps1 tbl key) key missing)
    as [e|hdr1 [rows1 [e|]]] eqn:H1; simpl in Hout; try discriminate.
  injection Hout as <-.
  destruct (itermergeduplicates_inv _ _ _ _ _ H1)
    as [t [getkey [kf [idxs [Hs [Hk [Hf [Hi [Hh HF]]]]]]]]].
  destruct (filter_value_fields kf (header t)) as [Hfilter Hdisj].
  set (vf := filter (fun f => negb (contains kf f)) (header t)) in *.
  subst hdr1.
  destruct (rekey (header t) key getkey kf vf Hk Hf) as [gk1 [Hk1 Hgk1]].
  destruct (keygetter_cells _ _ _ _ Hk Hf) as [kidx [Hkidx Hkc]].
  destruct (valfld_indexes (kf ++ vf) kf) as [idxs2 Hi2].
  rewrite Hfilter in Hi2.
  set (groups := groupby getkey (body t)) in *.
  (* each row has the key of its group and merges into itself *)
  assert (Hrows : Forall2
            (fun kg r =>
               gk1 r = fst kg /\
               merge_group key missing idxs2 (gk1 r, [VTuple r]) = Ok r)
            groups rows1).
  { pose proof (groupby_groups getkey (body t)) as Hg. fold groups in Hg.
    clear H1. induction HF as [|[k g] r gs rs Hm _ IH]; [constructor|].
    inversion Hg as [|? ? [Hne Hkeys] Hg']; subst. simpl in *.
    constructor; [|exact (IH Hg')].
    destruct g as [|x g]; [exfalso; apply Hne; reflexivity|].
    inversion Hkeys as [|? ? Hx _]; subst.
    destruct (merge_group_shape key missing (header t) vf idxs (getkey x)
                (map VTuple (x :: g)) r _ (Hkc x)
                (mapM_Forall2 _ _ _ Hi) Hm) as [psi [Hr Hpsi]].
    assert (Hgk : gk1 r = getkey x).
    { rewrite Hr. apply Hgk1. apply Hkc. }
    split; [exact Hgk|]. rewrite Hgk, Hr.
    apply (remerge key missing kf vf); try assumption.
    - apply Hkc.
    - rewrite length_map. apply mapM_Forall2 in Hkidx.
      symmetry. exact (Forall2_length Hkidx). }
  assert (Hkeys1 : map gk1 rows1 = map fst groups).
  { clear -Hrows. induction Hrows as [|kg r gs rs [Hx _] _ IH]; simpl;
      [reflexivity|]. rewrite Hx, IH. reflexivity. }
  assert (Hfix : Forall
            (fun r => merge_group key missing idxs2 (gk1 r, [VTuple r])
                      = Ok r) rows1).
  { clear -Hrows. induction Hrows as [|kg r gs rs [_ Hx] _ IH];
      constructor; assumption. }
  (* the source of the second view iterates to the output itself *)
  assert (Hs2 : iter_source (sorted_unless ps2 (Table (kf ++ vf) rows1) key)
                = Ok (Table (kf ++ vf) rows1)).
  { destruct ps2; [reflexivity|].
    destruct ps1; [specialize (Hps eq_refl); discriminate|].
    simpl in *. unfold sort in *. simpl. rewrite Hk1. simpl.
    f_equal. f_equal. apply sort_rows_id. apply sorted_by_keys.
    rewrite Hkeys1. apply groupby_sorted_keys.
    destruct (keygetter (header tbl) key) as [gk|e] eqn:Hk0; simpl in Hs;
      [|discriminate].
    injection Hs as <-. simpl in *. rewrite Hk0 in Hk. injection Hk as <-.
    apply sort_rows_sorted. }
  rewrite (itermergeduplicates_unfold _ (Table (kf ++ vf) rows1) key
             missing gk1 kf idxs2 Hs2 Hk1 Hf);
    [|simpl; rewrite Hfilter; exact Hi2].
  simpl. rewrite Hfilter. f_equal.
  rewrite groupby_singletons.
  - rewrite yield_each_map. simpl. apply yield_each_fixed. exact Hfix.
  - rewrite Hkeys1. apply groupby_adjacent.
Qed.

Lemma mergeduplicates_idempotent_witness :
  MergeDuplicatesView_iter
    (mergeduplicates merge_example_output (KeyField "foo") VNone false)
  = MergeDuplicatesView_iter
      (mergeduplicates merge_example_table (KeyField "foo") VNone false).
Proof.
  exact (mergeduplicates_idempotent merge_example_table (KeyField "foo")
           VNone false false merge_example_output (fun H => H) eq_refl).
Defined.


(** ** groupselectfirst, groupselectmin, groupselectmax *)

Lemma rowreduce_unsorted_unfold (tbl : table) (key : keyspec)
    (reducer : reducer_fn) (getkey : row -> value) :
  keygetter (header tbl) key = Ok getkey ->
  RowReduceView_iter (rowreduce tbl key reducer None false)
  = Emit (header tbl)
      (yield_each
         (fun kg => reducer (fst kg) (map VTuple (snd kg)))
         (groupby getkey (sort_rows getkey (body tbl)))).
Proof.
  intros Hk.
  unfold RowReduceView_iter, rowreduce, RowReduceView_init, iterrowreduce.
  simpl. unfold iterpeek. simpl. unfold sort. rewrite Hk. simpl.
  unfold rowgroupby_source. simpl.
  rewrite (rowgroupby_whole_rows
             (Table (header tbl) (sort_rows getkey (body tbl))) key getkey
             Hk).
  simpl. rewrite yield_each_map. reflexivity.
Qed.

(** What [groupselectfirst] yields: the first row of each group of the
    sorted table. *)
Lemma groupselectfirst_groups (tbl : table) (key : keyspec)
    (getkey : row -> value) :
  keygetter (header tbl) key = Ok getkey ->
  RowReduceView_iter (groupselectfirst tbl key)
  = Emit (header tbl)
      (Stream (map (fun kg => hd [] (snd kg))
                   (groupby getkey (sort_rows getkey (body tbl))))
              None).
Proof.
  intros Hk. unfold groupselectfirst.
  rewrite (rowreduce_unsorted_unfold tbl key first_of_group getkey Hk).
  f_equal. apply yield_each_Forall2.
  pose proof (groupby_groups getkey (sort_rows getkey (body tbl))) as Hg.
  induction Hg as [|[k g] gs [Hne _] _ IH]; simpl; constructor;
    [|exact IH].
  simpl in *. destruct g as [|x g]; [exfalso; apply Hne; reflexivity|].
  reflexivity.
Qed.

(** X1: [groupselectfirst] yields the header of the table and then one
    row per distinct key value of the table, each a data row of the table
    that has this key, unchanged. *)
Theorem groupselectfirst_one_row_per_key :
  forall (tbl : table) (key : keyspec) (getkey : row -> value),
    keygetter (header tbl) key = Ok getkey ->
    exists (keys : list value) (rows : list row),
      RowReduceView_iter (groupselectfirst tbl key)
      = Emit (header tbl) (Stream rows None) /\
      NoDup keys /\
      (forall k, In k keys <-> exists r, In r (body tbl) /\ getkey r = k) /\
      Forall2 (fun k r => In r (body tbl) /\ getkey r = k) keys rows.
Proof.
  intros tbl key getkey Hk.
  set (sorted := sort_rows getkey (body tbl)).
  set (groups := groupby getkey sorted).
  exists (map fst groups), (map (fun kg => hd [] (snd kg)) groups).
  pose proof (sort_rows_sorted getkey (body tbl)) as Hsorted.
  fold sorted in Hsorted.
  split; [exact (groupselectfirst_groups tbl key getkey Hk)|].
  split; [apply vlt_sorted_NoDup, groupby_sorted_keys; exact Hsorted|].
  split.
  - intros k. unfold groups. rewrite groupby_keys_In, in_map_iff.
    split; intros [r [H1 H2]].
    + exists r. split; [|exact H1]. apply (sort_rows_In getkey). exact H2.
    + exists r. split; [exact H2|]. apply (sort_rows_In getkey). exact H1.
  - pose proof (groupby_groups getkey sorted) as Hg. fold groups in Hg.
    assert (Hmem : forall kg, In kg groups ->
                     forall x, In x (snd kg) -> In x (body tbl)).
    { intros [k g] Hkg x Hx. apply (sort_rows_In getkey).
      exact (groupby_members getkey sorted k g x Hkg Hx). }
    clearbody groups. induction Hg as [|[k g] gs [Hne Hkeys] _ IH]; simpl;
      constructor.
    + simpl in *. destruct g as [|x g]; [exfalso; apply Hne; reflexivity|].
      simpl. inversion Hkeys; subst. split; [|reflexivity].
      apply (Hmem (getkey x, x :: g)); simpl; auto.
    + apply IH. intros kg Hkg. apply Hmem. right. exact Hkg.
Qed.

Lemma groupselectfirst_one_row_per_key_witness :
  exists (keys : list value) (rows : list row),
    RowReduceView_iter
      (groupselectfirst rowreduce_example_table (KeyField "foo"))
    = Emit ["foo"; "bar"] (Stream rows None) /\
    NoDup keys /\ List.length keys = List.length rows.
Proof.
  destruct (groupselectfirst_one_row_per_key rowreduce_example_table
              (KeyField "foo") (fun r => getitem r 0) eq_refl)
    as [keys [rows [H [Hnd [_ HF]]]]].
  exists keys, rows. split; [exact H|]. split; [exact Hnd|].
  exact (Forall2_length HF).
Defined.

Lemma insert_row_desc_In (getkey : row -> value) (x y : row)
    (l : list row) :
  In y (insert_row_desc getkey x l) <-> y = x \/ In y l.
Proof.
  induction l as [|z l IH]; simpl.
  - intuition.
  - destruct (value_leb (getkey z) (getkey x)); simpl.
    + intuition.
    + rewrite IH. intuition.
Qed.

Lemma sort_rows_desc_In (getkey : row -> value) (y : row) (l : list row) :
  In y (sort_rows_desc getkey l) <-> In y l.
Proof.
  induction l as [|x l IH]; simpl; [reflexivity|].
  rewrite insert_row_desc_In, IH. intuition.
Qed.

Lemma sort_rows_desc_sorted (getkey : row -> value) (l : list row) :
  StronglySorted (fun x y => key_le getkey y x) (sort_rows_desc getkey l).
Proof.
  induction l as [|x l IH]; simpl; [constructor|].
  revert IH. generalize (sort_rows_desc getkey l). clear l.
  induction 1 as [|z l Hs IH Hz]; simpl.
  - constructor; constructor.
  - destruct (value_leb (getkey z) (getkey x)) eqn:E.
    + constructor; [constructor; assumption|].
      constructor; [exact E|].
      rewrite Forall_forall in *. intros w Hw. unfold key_le in *.
      exact (value_leb_trans _ _ _ (Hz w Hw) E).
    + constructor; [exact IH|].
      rewrite Forall_forall in *. intros w Hw.
      apply insert_row_desc_In in Hw. destruct Hw as [->|Hw]; [|auto].
      unfold key_le. apply value_leb_cases. left.
      exact (value_leb_false _ _ E).
Qed.

(** The rows [groupselectfirst] yields, by key: for each distinct key the
    first of the rows of the table that have it. *)
Lemma groupselectfirst_heads (tbl : table) (key : keyspec)
    (getkey : row -> value) :
  keygetter (header tbl) key = Ok getkey ->
  exists keys : list value,
    RowReduceView_iter (groupselectfirst tbl key)
    = Emit (header tbl)
        (Stream
           (map (fun k => hd [] (filter (has_key getkey k) (body tbl)))
                keys)
           None) /\
    NoDup keys /\
    (forall k, In k keys <-> exists r, In r (body tbl) /\ getkey r = k).
Proof.
  intros Hk.
  set (sorted := sort_rows getkey (body tbl)).
  set (groups := groupby getkey sorted).
  exists (map fst groups).
  pose proof (sort_rows_sorted getkey (body tbl)) as Hsorted.
  fold sorted in Hsorted.
  split; [|split].
  - rewrite (groupselectfirst_groups tbl key getkey Hk).
    fold sorted. fold groups. f_equal. f_equal. rewrite map_map.
    pose proof (groupby_sorted_groups getkey sorted Hsorted) as Hgs.
    fold groups in Hgs. clearbody groups.
    induction Hgs as [|kg gs Hkg _ IH]; simpl; [reflexivity|].
    f_equal; [|exact IH].
    transitivity (hd [] (filter (has_key getkey (fst kg)) sorted)).
    + f_equal. exact Hkg.
    + unfold sorted. rewrite sort_rows_filter. reflexivity.
  - apply vlt_sorted_NoDup, groupby_sorted_keys. exact Hsorted.
  - intros k. unfold groups. rewrite groupby_keys_In, in_map_iff.
    split; intros [r [H1 H2]].
    + exists r. split; [|exact H1]. apply (sort_rows_In getkey). exact H2.
    + exists r. split; [exact H2|]. apply (sort_rows_In getkey). exact H1.
Qed.

Lemma filter_head_In {A : Type} (p : A -> bool) (l : list A) (x : A)
    (rest : list A) :
  filter p l = x :: rest -> In x l /\ p x = true.
Proof.
  intros H. apply filter_In. rewrite H. left. reflexivity.
Qed.

(** In an ordered list, the first item that passes a test comes before
    every item that passes it. *)
Lemma filter_sorted_head {A : Type} (R : A -> A -> Prop) (p : A -> bool)
    (l : list A) :
  StronglySorted R l ->
  forall x rest, filter p l = x :: rest ->
  forall y, In y l -> p y = true -> y = x \/ R x y.
Proof.
  induction 1 as [|z l Hs IH Hz]; simpl; intros x rest Hf y Hy Hp;
    [contradiction|].
  destruct (p z) eqn:Ez.
  - injection Hf as -> _. destruct Hy as [Hy|Hy]; [auto|].
    right. rewrite Forall_forall in Hz. exact (Hz y Hy).
  - destruct Hy as [Hy|Hy]; [congruence|].
    exact (IH x rest Hf y Hy Hp).
Qed.

Lemma sort_with_spec (tbl : table) (vfield : keyspec) (reverse : bool)
    (getval : row -> value) :
  keygetter (header tbl) vfield = Ok getval ->
  exists l,
    sort_with tbl vfield reverse = Ok (Table (header tbl) l) /\
    (forall r, In r l <-> In r (body tbl)) /\
    StronglySorted
      (fun x y => if reverse then key_le getval y x else key_le getval x y)
      l.
Proof.
  intros Hv. unfold sort_with, sort. rewrite Hv. simpl.
  destruct reverse.
  - exists (sort_rows_desc getval (body tbl)). split; [reflexivity|].
    split; [intros r; apply sort_rows_desc_In|apply sort_rows_desc_sorted].
  - exists (sort_rows getval (body tbl)). split; [reflexivity|].
    split; [intros r; apply sort_rows_In|apply sort_rows_sorted].
Qed.

Lemma groupselect_spec (reverse : bool) (tbl : table) (key vfield : keyspec)
    (getkey getval : row -> value) :
  keygetter (header tbl) key = Ok getkey ->
  keygetter (header tbl) vfield = Ok getval ->
  exists (keys : list value) (rows : list row),
    groupselect_iter reverse tbl key vfield
    = Emit (header tbl) (Stream rows None) /\
    NoDup keys /\
    (forall k, In k keys <-> exists r, In r (body tbl) /\ getkey r = k) /\
    Forall2
      (fun k r =>
         In r (body tbl) /\ getkey r = k /\
         forall r', In r' (body tbl) -> getkey r' = k ->
                    if reverse
                    then value_leb (getval r') (getval r) = true
                    else value_leb (getval r) (getval r') = true)
      keys rows.
Proof.
  intros Hk Hv.
  destruct (sort_with_spec tbl vfield reverse getval Hv)
    as [l [Hsort [Hin Hsorted]]].
  destruct (groupselectfirst_heads (Table (header tbl) l) key getkey Hk)
    as [keys [Hiter [Hnd Hmem]]].
  simpl in *.
  exists keys, (map (fun k => hd [] (filter (has_key getkey k) l)) keys).
  split; [unfold groupselect_iter; rewrite Hsort; exact Hiter|].
  split; [exact Hnd|]. split.
  - intros k. rewrite Hmem. split; intros [r [H1 H2]]; exists r;
      (split; [apply Hin; exact H1|exact H2]).
  - assert (Hall : forall k, In k keys ->
              exists r, In r l /\ getkey r = k) by (intros k; apply Hmem).
    clear Hiter Hnd Hmem. induction keys as [|k keys IH]; simpl;
      constructor.
    + destruct (Hall k (or_introl eq_refl)) as [r0 [Hr0 Hk0]].
      destruct (filter (has_key getkey k) l) as [|x rest] eqn:Hf.
      * exfalso. assert (Hr : In r0 (filter (has_key getkey k) l)).
        { apply filter_In. split; [exact Hr0|].
          unfold has_key. rewrite Hk0. apply py_eq_refl. }
        rewrite Hf in Hr. exact Hr.
      * simpl. destruct (filter_head_In _ _ _ _ Hf) as [Hx Hpx].
        unfold has_key in Hpx. apply py_eq_true in Hpx.
        split; [apply Hin; exact Hx|]. split; [exact Hpx|].
        intros r' Hr' Hk'.
        assert (Hp' : has_key getkey k r' = true).
        { unfold has_key. rewrite Hk'. apply py_eq_refl. }
        destruct (filter_sorted_head _ _ l Hsorted x rest Hf r'
                    (proj2 (Hin r') Hr') Hp') as [->|HR].
        -- destruct reverse; apply value_leb_refl.
        -- destruct reverse; exact HR.
    + apply IH. intros k' Hk'. apply Hall. right. exact Hk'.
Qed.

(** X2: [groupselectmin] and [groupselectmax] yield the header of the
    table and then one row per distinct key value of the table, each a
    data row of the table that has this key, however many rows tie on the
    value field. *)
Theorem groupselect_one_row_per_key :
  forall (tbl : table) (key vfield : keyspec)
         (getkey getval : row -> value),
    keygetter (header tbl) key = Ok getkey ->
    keygetter (header tbl) vfield = Ok getval ->
    (exists (keys : list value) (rows : list row),
        groupselectmin_iter tbl key vfield
        = Emit (header tbl) (Stream rows None) /\
        NoDup keys /\
        (forall k, In k keys <-> exists r, In r (body tbl) /\ getkey r = k) /\
        Forall2 (fun k r => In r (body tbl) /\ getkey r = k) keys rows) /\
    (exists (keys : list value) (rows : list row),
        groupselectmax_iter tbl key vfield
        = Emit (header tbl) (Stream rows None) /\
        NoDup keys /\
        (forall k, In k keys <-> exists r, In r (body tbl) /\ getkey r = k) /\
        Forall2 (fun k r => In r (body tbl) /\ getkey r = k) keys rows).
Proof.
  intros tbl key vfield getkey getval Hk Hv.
  split.
  - destruct (groupselect_spec false tbl key vfield getkey getval Hk Hv)
      as [keys [rows [H1 [H2 [H3 H4]]]]].
    exists keys, rows. repeat (split; [assumption|]).
    eapply Forall2_impl; [|exact H4]. simpl. intros k r [Ha [Hb _]]. auto.
  - destruct (groupselect_spec true tbl key vfield getkey getval Hk Hv)
      as [keys [rows [H1 [H2 [H3 H4]]]]].
    exists keys, rows. repeat (split; [assumption|]).
    eapply Forall2_impl; [|exact H4]. simpl. intros k r [Ha [Hb _]]. auto.
Qed.

(** X3: with the stable sort, the row [groupselectmin] yields for a key
    has the least value among the rows of the table with that key, and
    the row [groupselectmax] yields has the greatest. *)
Theorem groupselect_extreme :
  forall (tbl : table) (key vfield : keyspec)
         (getkey getval : row -> value),
    keygetter (header tbl) key = Ok getkey ->
    keygetter (header tbl) vfield = Ok getval ->
    (exists rows : list row,
        groupselectmin_iter tbl key vfield
        = Emit (header tbl) (Stream rows None) /\
        Forall
          (fun r => forall r', In r' (body tbl) -> getkey r' = getkey r ->
                               value_leb (getval r) (getval r') = true)
          rows) /\
    (exists rows : list row,
        groupselectmax_iter tbl key vfield
        = Emit (header tbl) (Stream rows None) /\
        Forall
          (fun r => forall r', In r' (body tbl) -> getkey r' = getkey r ->
                               value_leb (getval r') (getval r) = true)
          rows).
Proof.
  intros tbl key vfield getkey getval Hk Hv.
  split.
  - destruct (groupselect_spec false tbl key vfield getkey getval Hk Hv)
      as [keys [rows [H1 [_ [_ H4]]]]].
    exists rows. split; [exact H1|].
    clear H1. induction H4 as [|k r ks rs [_ [Hb Hc]] _ IH];
      constructor; [|exact IH].
    intros r' Hr' Hk'. apply Hc; congruence.
  - destruct (groupselect_spec true tbl key vfield getkey getval Hk Hv)
      as [keys [rows [H1 [_ [_ H4]]]]].
    exists rows. split; [exact H1|].
    clear H1. induction H4 as [|k r ks rs [_ [Hb Hc]] _ IH];
      constructor; [|exact IH].
    intros r' Hr' Hk'. apply Hc; congruence.
Qed.

Lemma groupselect_one_row_per_key_witness :
  exists rows : list row,
    groupselectmin_iter rowreduce_example_table (KeyField "foo")
      (KeyField "bar")
    = Emit ["foo"; "bar"] (Stream rows None).
Proof.
  destruct (groupselect_one_row_per_key rowreduce_example_table
              (KeyField "foo") (KeyField "bar")
              (fun r => getitem r 0) (fun r => getitem r 1) eq_refl eq_refl)
    as [[keys [rows [H _]]] _].
  exists rows. exact H.
Defined.

Lemma groupselect_extreme_witness :
  exists rows : list row,
    groupselectmax_iter rowreduce_example_table (KeyField "foo")
      (KeyField "bar")
    = Emit ["foo"; "bar"] (Stream rows None).
Proof.
  destruct (groupselect_extreme rowreduce_example_table
              (KeyField "foo") (KeyField "bar")
              (fun r => getitem r 0) (fun r => getitem r 1) eq_refl eq_refl)
    as [_ [rows [H _]]].
  exists rows. exact H.
Defined.

Example groupselect_example :
  groupselectmin_iter rowreduce_example_table (KeyField "foo")
    (KeyField "bar")
  = Emit ["foo"; "bar"]
      (Stream [[VStr "a"; VInt 3]; [VStr "b"; VInt 1]; [VStr "c"; VInt 4]]
         None) /\
  groupselectmax_iter rowreduce_example_table (KeyField "foo")
    (KeyField "bar")
  = Emit ["foo"; "bar"]
      (Stream [[VStr "a"; VInt 7]; [VStr "b"; VInt 9]; [VStr "c"; VInt 4]]
         None).
Proof. split; reflexivity. Qed.

(** ** More on mergeduplicates *)

Lemma iter_source_header (presorted : bool) (tbl t : table)
    (key : keyspec) :
  iter_source (sorted_unless presorted tbl key) = Ok t ->
  header t = header tbl.
Proof.
  destruct presorted; simpl.
  - intros E. injection E as <-. reflexivity.
  - unfold sort. destruct (keygetter (header tbl) key); simpl;
      [|discriminate].
    intros E. injection E as <-. reflexivity.
Qed.

Lemma itermergeduplicates_emit (src : source) (key : keyspec)
    (missing : value) (hdr : list string) (s : stream row) :
  itermergeduplicates src key missing = Emit hdr s ->
  exists t kf idxs,
    iter_source src = Ok t /\
    key_fields key = Ok kf /\
    mapM (index (header t))
         (filter (fun f => negb (contains kf f)) (header t)) = Ok idxs /\
    hdr = kf ++ filter (fun f => negb (contains kf f)) (header t) /\
    s = yield_from (rowgroupby t key WholeRow)
          (merge_group key missing idxs).
Proof.
  unfold itermergeduplicates, iterpeek.
  destruct (iter_source src) as [t|e]; simpl; [|discriminate].
  destruct (key_fields key) as [kf|e]; [|discriminate].
  destruct (valfld_indexes (header t) kf) as [idxs Hi]. rewrite Hi.
  intros E. injection E as <- <-. exists t, kf, idxs.
  split; [reflexivity|]. split; [reflexivity|]. split; [exact Hi|].
  split; reflexivity.
Qed.

Lemma Forall2_Forall_r {A B : Type} (P : A -> B -> Prop) (Q : A -> Prop)
    (R : B -> Prop) (l : list A) (ys : list B) :
  (forall x y, Q x -> P x y -> R y) ->
  Forall2 P l ys -> Forall Q l -> Forall R ys.
Proof.
  intros H HF. induction HF as [|x y l ys Hxy _ IH]; intros HQ;
    constructor; inversion HQ; subst; eauto.
Qed.

Lemma Forall_firstn_of {A : Type} (Q : A -> Prop) (n : nat) (l : list A) :
  Forall Q l -> Forall Q (firstn n l).
Proof.
  intros H. revert n. induction H as [|x l Hx _ IH]; intros [|n]; simpl;
    constructor; auto.
Qed.

(** X4: the header [mergeduplicates] yields is the key fields followed by
    the fields of the table's header that are not key fields, in header
    order; when the header names are distinct and the key fields are
    distinct header names, it is a rearrangement of the table's header:
    no column is lost or repeated. *)
Theorem mergeduplicates_header :
  forall (tbl : table) (key : keyspec) (missing : value) (presorted : bool)
         (hdr : list string) (s : stream row),
    MergeDuplicatesView_iter (mergeduplicates tbl key missing presorted)
    = Emit hdr s ->
    exists kf,
      key_fields key = Ok kf /\
      hdr = kf ++ filter (fun f => negb (contains kf f)) (header tbl) /\
      (NoDup kf -> incl kf (header tbl) -> NoDup (header tbl) ->
       Permutation hdr (header tbl)).
Proof.
  intros tbl key missing presorted hdr s H.
  unfold MergeDuplicatesView_iter, mergeduplicates,
    MergeDuplicatesView_init in H. simpl in H.
  destruct (itermergeduplicates_emit _ _ _ _ _ H)
    as [t [kf [idxs [Hs [Hf [_ [Hh _]]]]]]].
  rewrite (iter_source_header _ _ _ _ Hs) in Hh.
  exists kf. split; [exact Hf|]. split; [exact Hh|].
  intros Hnk Hincl Hnh. subst hdr.
  assert (Hd : forall f,
             In f (filter (fun f => negb (contains kf f)) (header tbl)) ->
             ~ In f kf).
  { intros f Hin. apply filter_In in Hin. destruct Hin as [_ Hn].
    apply negb_true_iff in Hn. intros Hk. apply contains_In in Hk.
    congruence. }
  apply NoDup_Permutation; [|exact Hnh|].
  - apply NoDup_app.
    + exact Hnk.
    + apply NoDup_filter. exact Hnh.
    + intros f Hk Hv. exact (Hd f Hv Hk).
  - intros f. rewrite in_app_iff, filter_In. split.
    + intros [Hk|[Hh _]]; [apply Hincl; exact Hk|exact Hh].
    + intros Hh. destruct (contains kf f) eqn:E.
      * left. apply contains_In. exact E.
      * right. split; [exact Hh|reflexivity].
Qed.

Lemma mergeduplicates_header_witness :
  exists kf,
    key_fields (KeyField "bar") = Ok kf /\
    Permutation ["bar"; "foo"; "baz"] (header merge_example_table).
Proof.
  destruct (mergeduplicates_header merge_example_table (KeyField "bar")
              VNone false ["bar"; "foo"; "baz"] _ eq_refl)
    as [kf [Hf [_ Hp]]].
  exists kf. split; [exact Hf|]. injection Hf as <-. apply Hp.
  - repeat constructor; simpl; intuition.
  - intros f [<-|[]]. simpl. auto.
  - repeat constructor; simpl; intuition discriminate.
Defined.

(** X5: however long the rows of the table are, every row
    [mergeduplicates] yields has as many cells as the header it yields. *)
Theorem mergeduplicates_rectangular :
  forall (tbl : table) (key : keyspec) (missing : value) (presorted : bool)
         (hdr : list string) (s : stream row),
    MergeDuplicatesView_iter (mergeduplicates tbl key missing presorted)
    = Emit hdr s ->
    Forall (fun r => List.length r = List.length hdr) (yielded s).
Proof.
  intros tbl key missing presorted hdr s H.
  unfold MergeDuplicatesView_iter, mergeduplicates,
    MergeDuplicatesView_init in H. simpl in H.
  destruct (itermergeduplicates_emit _ _ _ _ _ H)
    as [t [kf [idxs [Hs [Hf [Hi [Hh Hy]]]]]]].
  destruct (keygetter (header t) key) as [getkey|e] eqn:Hk.
  2:{ unfold rowgroupby in Hy. rewrite Hk in Hy. simpl in Hy. subst s.
      constructor. }
  rewrite (rowgroupby_whole_rows t key getkey Hk) in Hy. simpl in Hy.
  rewrite yield_each_map in Hy. subst s.
  set (f := fun x : value * list row =>
              merge_group key missing idxs (fst x, map VTuple (snd x))).
  destruct (yield_each_prefix f (groupby getkey (body t))) as [Hp _].
  destruct (keygetter_cells _ _ _ _ Hk Hf) as [kidx [Hkidx Hkc]].
  eapply Forall2_Forall_r; [|exact Hp|].
  2:{ apply Forall_firstn_of. exact (groupby_groups getkey (body t)). }
  intros [k g] r [Hne Hkeys] Hm. simpl in *. unfold f in Hm. simpl in Hm.
  apply merge_group_spec in Hm. destruct Hm as [kc [cs [H1 [-> H3]]]].
  destruct g as [|x g]; [exfalso; apply Hne; reflexivity|].
  inversion Hkeys as [|? ? Hx _]; subst k. rewrite Hkc in H1.
  injection H1 as <-. rewrite Hh, !length_app, length_map.
  apply mapM_Forall2 in Hkidx, Hi.
  rewrite <- (Forall2_length Hkidx), <- (Forall2_length H3),
    (Forall2_length Hi). reflexivity.
Qed.

Lemma mergeduplicates_rectangular_witness :
  Forall (fun r => List.length r = 3%nat)
         [[VStr "B"; VInt 2; VNone]; [VStr "C"; VNone; VNone]].
Proof.
  exact (mergeduplicates_rectangular
           (Table ["foo"; "bar"; "baz"]
              [[VStr "B"; VInt 2]; [VStr "C"];
               [VStr "B"; VInt 2; VNone; VInt 5]])
           (KeyField "foo") VNone false ["foo"; "bar"; "baz"]
           (Stream [[VStr "B"; VInt 2; VNone]; [VStr "C"; VNone; VNone]]
                   None)
           eq_refl).
Defined.

Lemma mapM_pure {A B : Type} (f : A -> result B) (g : A -> B)
    (l : list A) :
  (forall x, In x l -> f x = Ok (g x)) -> mapM f l = Ok (map g l).
Proof.
  induction l as [|x l IH]; simpl; intros H; [reflexivity|].
  rewrite (H x (or_introl eq_refl)), IH; [reflexivity|].
  intros y Hy. apply H. right. exact Hy.
Qed.

(** The cell a group of one row gets at a position: what the row holds
    there, or the missing sentinel when the row is too short. *)
Lemma single_row_cell (missing : value) (r : row) (i : nat) :
  Forall (fun v => hashable v = true) r ->
  exists m,
    merged_values missing [VTuple r] i = Ok m /\
    normed_value missing m = Ok (nth i r missing).
Proof.
  intros Hh. unfold merged_values. simpl.
  destruct (i <? List.length r)%nat eqn:Hlt; simpl.
  - apply Nat.ltb_lt in Hlt. unfold getitem.
    rewrite (nth_indep r VNone missing Hlt).
    destruct (py_eq (nth i r missing) missing) eqn:E; simpl.
    + exists []. split; [reflexivity|]. apply py_eq_true in E.
      unfold normed_value. simpl. rewrite E. reflexivity.
    + exists [nth i r missing]. split; [|reflexivity].
      unfold pyset, getitem. simpl.
      rewrite (nth_indep r VNone missing Hlt). rewrite Forall_forall in Hh.
      rewrite (Hh _ (nth_In r missing Hlt)). reflexivity.
  - apply Nat.ltb_ge in Hlt. rewrite (nth_overflow r missing Hlt).
    exists []. split; reflexivity.
Qed.

Lemma single_row_group (key : keyspec) (missing : value)
    (idxs : list nat) (k : value) (kc r : row) :
  key_cells key k = Ok kc ->
  Forall (fun v => hashable v = true) r ->
  merge_group key missing idxs (k, [VTuple r])
  = Ok (kc ++ map (fun i => nth i r missing) idxs).
Proof.
  intros Hk Hh. unfold merge_group. simpl. rewrite Hk. simpl.
  assert (H : exists mv,
             mapM (merged_values missing [VTuple r]) idxs = Ok mv /\
             mapM (normed_value missing) mv
             = Ok (map (fun i => nth i r missing) idxs)).
  { induction idxs as [|i idxs [mv [H1 H2]]]; simpl.
    - exists []. split; reflexivity.
    - destruct (single_row_cell missing r i Hh) as [m [Hm Hn]].
      exists (m :: mv). rewrite Hm, H1. simpl. rewrite Hn, H2.
      split; reflexivity. }
  destruct H as [mv [H1 H2]]. rewrite H1. simpl. rewrite H2. reflexivity.
Qed.

(** X6: on a table in which consecutive rows have different keys (every
    key in one row, once sorted) and whose cells are hashable,
    [mergeduplicates] yields each row rearranged: the cells of the key
    fields, then the cells of the other fields in header order, a row too
    short for a field giving [None] for a key field and the missing
    sentinel for another field. *)
Theorem mergeduplicates_without_duplicates :
  forall (tbl : table) (key : keyspec) (missing : value) (presorted : bool)
         (t : table) (getkey : row -> value) (kf : list string),
    iter_source (sorted_unless presorted tbl key) = Ok t ->
    keygetter (header t) key = Ok getkey ->
    key_fields key = Ok kf ->
    Sorted (fun a b => a <> b) (map getkey (body t)) ->
    Forall (Forall (fun v => hashable v = true)) (body t) ->
    let vf := filter (fun f => negb (contains kf f)) (header t) in
    MergeDuplicatesView_iter (mergeduplicates tbl key missing presorted)
    = Emit (kf ++ vf)
        (Stream
           (map (fun r =>
                   map (fun f => nth (position (header t) f) r VNone) kf
                   ++ map (fun f => nth (position (header t) f) r missing)
                          vf)
                (body t))
           None).
Proof.
  intros tbl key missing presorted t getkey kf Hs Hk Hf Hadj Hh vf.
  destruct (valfld_indexes (header t) kf) as [idxs Hi]. fold vf in Hi.
  unfold MergeDuplicatesView_iter, mergeduplicates,
    MergeDuplicatesView_init. simpl.
  rewrite (itermergeduplicates_unfold _ t key missing getkey kf idxs
             Hs Hk Hf Hi).
  fold vf. f_equal. rewrite (groupby_singletons getkey (body t) Hadj).
  rewrite yield_each_map. simpl. apply yield_each_Forall2.
  destruct (keygetter_cells _ _ _ _ Hk Hf) as [kidx [Hkidx Hkc]].
  assert (Ekidx : kidx = map (position (header t)) kf).
  { apply mapM_Forall2 in Hkidx. clear -Hkidx.
    induction Hkidx as [|f i fs ix Hfi _ IH]; simpl; [reflexivity|].
    rewrite <- IH. f_equal. unfold position, field_index in *.
    destruct (index (header t) f); congruence. }
  assert (Eidxs : idxs = map (position (header t)) vf).
  { apply mapM_Forall2 in Hi. clear -Hi.
    induction Hi as [|f i fs ix Hfi _ IH]; simpl; [reflexivity|].
    rewrite <- IH. f_equal. unfold position. rewrite Hfi. reflexivity. }
  clear Hadj. induction Hh as [|r rows Hr _ IH]; simpl; constructor;
    [|exact IH].
  rewrite (single_row_group key missing idxs (getkey r)
             (map (getitem r) kidx) r (Hkc r) Hr).
  rewrite Ekidx, Eidxs, !map_map. reflexivity.
Qed.

Lemma mergeduplicates_without_duplicates_witness :
  MergeDuplicatesView_iter
    (mergeduplicates ragged_table (KeyField "bar") (VInt 0) false)
  = Emit ["bar"; "foo"; "baz"]
      (Stream [[VNone; VStr "C"; VInt 0];
               [VInt 1; VStr "A"; VNone];
               [VInt 2; VStr "B"; VInt 0]]
              None).
Proof.
  rewrite (mergeduplicates_without_duplicates ragged_table (KeyField "bar")
             (VInt 0) false
             (Table ["foo"; "bar"; "baz"]
                [[VStr "C"]; [VStr "A"; VInt 1; VNone; VInt 5];
                 [VStr "B"; VInt 2]])
             (fun r => getitem r 1) ["bar"] eq_refl eq_refl eq_refl).
  - reflexivity.
  - simpl. repeat constructor; discriminate.
  - simpl. repeat constructor.
Defined.

(** ** More on aggregate *)

Lemma insert_row_perm (getkey : row -> value) (x : row) (l : list row) :
  Permutation (insert_row getkey x l) (x :: l).
Proof.
  induction l as [|y l IH]; simpl; [reflexivity|].
  destruct (value_leb (getkey x) (getkey y)); [reflexivity|].
  rewrite IH. apply perm_swap.
Qed.

Lemma sort_rows_perm (getkey : row -> value) (l : list row) :
  Permutation (sort_rows getkey l) l.
Proof.
  induction l as [|x l IH]; simpl; [reflexivity|].
  rewrite insert_row_perm, IH. reflexivity.
Qed.

(** The groups of a sequence, laid end to end, are the sequence. *)
Lemma groupby_concat {A : Type} (getkey : A -> value) (l : list A) :
  List.concat (map snd (groupby getkey l)) = l.
Proof.
  induction l as [|x l IH]; simpl; [reflexivity|].
  destruct (groupby getkey l) as [|[k g] rest]; simpl in *.
  - rewrite <- IH. reflexivity.
  - destruct (py_eq (getkey x) k); simpl; rewrite <- IH; reflexivity.
Qed.

(** The groups the views work on: those of the table's rows, in key order
    unless the table is taken as presorted. *)
Lemma rowgroupby_source_groups (presorted : bool) (tbl : table)
    (key : keyspec) (vspec : valspec)
    (groups : list (value * list value)) :
  rowgroupby_source (sorted_unless presorted tbl key) key vspec
  = Ok groups ->
  exists getkey getval l,
    keygetter (header tbl) key = Ok getkey /\
    valgetter (header tbl) vspec = Ok getval /\
    Permutation l (body tbl) /\
    (presorted = true -> l = body tbl) /\
    groups = map (fun kg => (fst kg, map getval (snd kg)))
                 (groupby getkey l).
Proof.
  unfold rowgroupby_source, rowgroupby. destruct presorted; simpl.
  - destruct (keygetter (header tbl) key) as [gk|e]; simpl;
      [|discriminate].
    destruct (valgetter (header tbl) vspec) as [gv|e]; simpl;
      [|discriminate].
    intros E. injection E as <-. exists gk, gv, (body tbl).
    repeat split; reflexivity.
  - unfold sort. destruct (keygetter (header tbl) key) as [gk|e] eqn:Hk;
      simpl; [|discriminate].
    rewrite Hk. simpl.
    destruct (valgetter (header tbl) vspec) as [gv|e]; simpl;
      [|discriminate].
    intros E. injection E as <-. exists gk, gv, (sort_rows gk (body tbl)).
    split; [reflexivity|]. split; [reflexivity|].
    split; [apply sort_rows_perm|]. split; [discriminate|reflexivity].
Qed.

(** The rows of a simple aggregate view that ran to completion: for each
    group the key cells and then what the aggregation function returns on
    the group. *)
Lemma itersimpleaggregate_done (src : source) (key : keyspec)
    (aggregation : callable) (vspec : valspec) (hdr : list string)
    (rows : list row) :
  itersimpleaggregate src key aggregation vspec
  = Emit hdr (Stream rows None) ->
  exists groups,
    rowgroupby_source src key vspec = Ok groups /\
    Forall2
      (fun kg r =>
         exists kc a,
           r = kc ++ [a] /\
           call (if is_len aggregation then count_pass else aggregation)
                (PyIter (snd kg)) = Ok a /\
           match key with
           | KeyFields _ => py_list (fst kg) = Ok kc
           | _ => kc = [fst kg]
           end)
      groups rows.
Proof.
  unfold itersimpleaggregate. intros H.
  destruct (rowgroupby_source src key vspec) as [groups|e];
    [|destruct key; discriminate H].
  exists groups. split; [reflexivity|].
  set (agg := if is_len aggregation then count_pass else aggregation) in *.
  destruct key as [f|fs|g]; simpl in H; injection H as _ H;
    apply yield_each_done in H;
    (eapply Forall2_impl; [|exact H]); intros kg r Hr; simpl in Hr.
  - destruct (call agg (PyIter (snd kg))) as [a|e]; simpl in Hr;
      [|discriminate].
    injection Hr as <-. exists [fst kg], a. auto.
  - destruct (py_list (fst kg)) as [kc|e]; simpl in Hr; [|discriminate].
    destruct (call agg (PyIter (snd kg))) as [a|e]; simpl in Hr;
      [|discriminate].
    injection Hr as <-. exists kc, a. auto.
  - destruct (call agg (PyIter (snd kg))) as [a|e]; simpl in Hr;
      [|discriminate].
    injection Hr as <-. exists [fst kg], a. auto.
Qed.

Lemma Forall2_map_swap {A B C D : Type} (P : B -> C -> Prop)
    (Q : C -> D -> Prop) (f : A -> B) (g : A -> D) (l : list A) :
  (forall x y, P (f x) y -> Q y (g x)) ->
  forall ys, Forall2 P (map f l) ys -> Forall2 Q ys (map g l).
Proof.
  intros H. induction l as [|x l IH]; simpl; intros ys HF;
    inversion HF; subst; constructor; auto.
Qed.

(** X7: the counts that [aggregate(table, key, len)] yields, one per
    group in the last cell of its row, add up to the number of data rows
    of the table, whatever the key, the value field and the sort
    policy. *)
Theorem aggregate_len_counts_sum :
  forall (tbl : table) (key : keyspec) (vspec : valspec) (presorted : bool)
         (hdr : list string) (rows : list row),
    SimpleAggregateView_iter
      (SimpleAggregateView_init tbl key builtin_len vspec presorted)
    = Emit hdr (Stream rows None) ->
    exists counts : list nat,
      Forall2 (fun r n => last r VNone = VInt (Z.of_nat n)) rows counts /\
      list_sum counts = List.length (body tbl).
Proof.
  intros tbl key vspec presorted hdr rows H.
  unfold SimpleAggregateView_iter, SimpleAggregateView_init in H.
  simpl in H.
  destruct (itersimpleaggregate_done _ _ _ _ _ _ H) as [groups [Hg HF]].
  destruct (rowgroupby_source_groups _ _ _ _ _ Hg)
    as [gk [gv [l [_ [_ [Hperm [_ ->]]]]]]].
  exists (map (fun kg => List.length (snd kg)) (groupby gk l)). split.
  - clear Hg. eapply Forall2_map_swap; [|exact HF].
    intros kg r [kc [a [-> [Ha _]]]]. simpl in Ha.
    rewrite py_sum_ones, length_map in Ha. injection Ha as <-.
    apply last_last.
  - rewrite <- (Permutation_length Hperm).
    rewrite <- (groupby_concat gk l) at 2.
    generalize (groupby gk l). intros gs.
    induction gs as [|kg gs IH]; simpl; [reflexivity|].
    rewrite length_app, IH. reflexivity.
Qed.

Lemma aggregate_len_counts_sum_witness :
  exists counts : list nat,
    Forall2 (fun r n => last r VNone = VInt (Z.of_nat n))
            [[VStr "a"; VInt 2]; [VStr "b"; VInt 3]; [VStr "c"; VInt 1]]
            counts /\
    list_sum counts = 6%nat.
Proof.
  exact (aggregate_len_counts_sum rowreduce_example_table (KeyField "foo")
           WholeRow false ["foo"; "value"]
           [[VStr "a"; VInt 2]; [VStr "b"; VInt 3]; [VStr "c"; VInt 1]]
           eq_refl).
Defined.

(** X8: the lists that [aggregate(table, key, list, value)] yields, one
    per group in the last cell of its row, hold together the values of
    the table's rows, each as often as it occurs: laid end to end they
    are a rearrangement of the value column, and the column itself when
    the table is taken as presorted. *)
Theorem aggregate_list_partitions :
  forall (tbl : table) (key : keyspec) (vspec : valspec) (presorted : bool)
         (hdr : list string) (rows : list row) (getval : row -> value),
    valgetter (header tbl) vspec = Ok getval ->
    SimpleAggregateView_iter
      (SimpleAggregateView_init tbl key builtin_list vspec presorted)
    = Emit hdr (Stream rows None) ->
    exists lists : list (list value),
      Forall2 (fun r vs => last r VNone = VList vs) rows lists /\
      Permutation (List.concat lists) (map getval (body tbl)) /\
      (presorted = true -> List.concat lists = map getval (body tbl)).
Proof.
  intros tbl key vspec presorted hdr rows getval Hv H.
  unfold SimpleAggregateView_iter, SimpleAggregateView_init in H.
  simpl in H.
  destruct (itersimpleaggregate_done _ _ _ _ _ _ H) as [groups [Hg HF]].
  destruct (rowgroupby_source_groups _ _ _ _ _ Hg)
    as [gk [gv [l [_ [Hv' [Hperm [Hpre ->]]]]]]].
  rewrite Hv in Hv'. injection Hv' as <-.
  exists (map (fun kg => map getval (snd kg)) (groupby gk l)).
  assert (Hc : List.concat
                 (map (fun kg => map getval (snd kg)) (groupby gk l))
               = map getval l).
  { rewrite <- (groupby_concat gk l) at 2.
    generalize (groupby gk l). intros gs.
    induction gs as [|kg gs IH]; simpl; [reflexivity|].
    rewrite map_app, IH. reflexivity. }
  split; [|split].
  - clear Hg. eapply Forall2_map_swap; [|exact HF].
    intros kg r [kc [a [-> [Ha _]]]]. simpl in Ha. injection Ha as <-.
    apply last_last.
  - rewrite Hc. apply Permutation_map. exact Hperm.
  - intros Hp. rewrite Hc, (Hpre Hp). reflexivity.
Qed.

Lemma aggregate_list_partitions_witness :
  exists lists : list (list value),
    Forall2 (fun r vs => last r VNone = VList vs)
            [[VStr "a"; VList [VInt 3; VInt 7]];
             [VStr "b"; VList [VInt 2; VInt 1; VInt 9]];
             [VStr "c"; VList [VInt 4]]]
            lists /\
    Permutation (List.concat lists)
                (map (fun r => getitem r 1) (body rowreduce_example_table)).
Proof.
  destruct (aggregate_list_partitions rowreduce_example_table
              (KeyField "foo") (ValField "bar") false ["foo"; "value"]
              [[VStr "a"; VList [VInt 3; VInt 7]];
               [VStr "b"; VList [VInt 2; VInt 1; VInt 9]];
               [VStr "c"; VList [VInt 4]]]
              (fun r => getitem r 1) eq_refl eq_refl)
    as [lists [H1 [H2 _]]].
  exists lists. split; assumption.
Defined.

Lemma itermultiaggregate_unfold (src : source) (key : keyspec)
    (aggregation norm : odict) (t : table) :
  iter_source src = Ok t ->
  mapM (fun e => a <- normalise (snd e) ;; Ok (fst e, a)) aggregation
  = Ok norm ->
  itermultiaggregate src key aggregation
  = Emit (match key with
          | KeyFields fs => fs
          | KeyCallable _ => ["key"]
          | KeyField f => [f]
          end ++ map fst norm)
      (yield_from (rowgroupby t key WholeRow)
         (fun kg =>
            outrow <- match key with
                      | KeyFields _ => py_list (fst kg)
                      | _ => Ok [fst kg]
                      end ;;
            aggvals <- mapM (aggregate_field (header t) (snd kg)) norm ;;
            Ok (outrow ++ aggvals))).
Proof.
  intros Hs Hn. unfold itermultiaggregate. rewrite Hs, Hn. reflexivity.
Qed.

(** X9: counting the rows of each group gives the same table whether
    [len] is passed as the aggregation function or as the one entry
    'value' of a multiple aggregation, once the source iterates. *)
Theorem aggregate_len_simple_multi :
  forall (tbl : table) (key : keyspec) (presorted : bool) (t : table),
    iter_source (sorted_unless presorted tbl key) = Ok t ->
    exists v1 v2,
      aggregate tbl key (PCallable builtin_len) WholeRow presorted = Ok v1 /\
      aggregate tbl key (PDict [("value", PCallable builtin_len)]) WholeRow
        presorted = Ok v2 /\
      AggregateView_iter v1 = AggregateView_iter v2.
Proof.
  intros tbl key presorted t Hs.
  eexists. eexists. split; [reflexivity|]. split; [reflexivity|].
  unfold AggregateView_iter, SimpleAggregateView_iter,
    MultiAggregateView_iter, SimpleAggregateView_init.
  cbn [sa_table sa_key sa_aggregation sa_value ma_source ma_key
       ma_aggregation].
  rewrite (itermultiaggregate_unfold _ key
             [("value", PCallable builtin_len)]
             [("value", PTuple [PNone; PCallable builtin_len])] t Hs
             eq_refl).
  unfold itersimpleaggregate, rowgroupby_source. rewrite Hs.
  cbn [bind is_len].
  destruct key as [f|fs|g]; cbn [map fst app]; f_equal;
    apply yield_from_ext; intros kg; simpl; rewrite py_sum_ones.
  - reflexivity.
  - destruct (py_list (fst kg)); reflexivity.
  - reflexivity.
Qed.

Lemma aggregate_len_simple_multi_witness :
  exists v1 v2,
    aggregate rowreduce_example_table (KeyField "foo")
      (PCallable builtin_len) WholeRow true = Ok v1 /\
    aggregate rowreduce_example_table (KeyField "foo")
      (PDict [("value", PCallable builtin_len)]) WholeRow true = Ok v2 /\
    AggregateView_iter v1 = AggregateView_iter v2.
Proof.
  exact (aggregate_len_simple_multi rowreduce_example_table
           (KeyField "foo") true rowreduce_example_table eq_refl).
Defined.

Lemma normalise_names (aggregation norm : odict) :
  mapM (fun e => a <- normalise (snd e) ;; Ok (fst e, a)) aggregation
  = Ok norm ->
  map fst norm = map fst aggregation.
Proof.
  revert norm. induction aggregation as [|[k d] l IH]; simpl; intros norm H.
  - injection H as <-. reflexivity.
  - destruct (normalise d) as [a|e]; simpl in H; [|discriminate].
    destruct (mapM (fun e => a0 <- normalise (snd e) ;; Ok (fst e, a0)) l)
      as [n|e]; simpl in H; [|discriminate].
    injection H as <-. simpl. rewrite (IH n eq_refl). reflexivity.
Qed.

Lemma itermultiaggregate_emit (src : source) (key : keyspec)
    (aggregation : odict) (hdr : list string) (s : stream row) :
  itermultiaggregate src key aggregation = Emit hdr s ->
  exists t norm,
    iter_source src = Ok t /\
    mapM (fun e => a <- normalise (snd e) ;; Ok (fst e, a)) aggregation
    = Ok norm.
Proof.
  unfold itermultiaggregate.
  destruct (iter_source src) as [t|e]; [|discriminate].
  destruct (mapM (fun e => a <- normalise (snd e) ;; Ok (fst e, a))
                 aggregation) as [norm|e]; [|discriminate].
  intros _. exists t, norm. split; reflexivity.
Qed.

(** X10: the header a multiple aggregation yields is the key field(s),
    or 'key' for a callable key, followed by the output names in the
    order of the mapping, and every row it yields has as many cells as
    that header. *)
Theorem multiaggregate_rectangular :
  forall (v : MultiAggregateView) (hdr : list string) (s : stream row),
    MultiAggregateView_iter v = Emit hdr s ->
    hdr = match ma_key v with
          | KeyFields fs => fs
          | KeyCallable _ => ["key"]
          | KeyField f => [f]
          end ++ map fst (ma_aggregation v) /\
    Forall (fun r => List.length r = List.length hdr) (yielded s).
Proof.
  intros [src key aggregation] hdr s H.
  unfold MultiAggregateView_iter in H. simpl in *.
  destruct (itermultiaggregate_emit _ _ _ _ _ H) as [t [norm [Hs Hn]]].
  rewrite (itermultiaggregate_unfold _ _ _ _ _ Hs Hn) in H.
  injection H as <- <-. rewrite (normalise_names _ _ Hn).
  split; [reflexivity|].
  destruct (keygetter (header t) key) as [getkey|e] eqn:Hk.
  2:{ unfold rowgroupby. rewrite Hk. simpl. constructor. }
  rewrite (rowgroupby_whole_rows t key getkey Hk). simpl.
  rewrite yield_each_map.
  match goal with |- context [yield_each ?f _] => set (f0 := f) end.
  destruct (yield_each_prefix f0 (groupby getkey (body t))) as [Hp _].
  eapply Forall2_Forall_r; [|exact Hp|].
  2:{ apply Forall_firstn_of. exact (groupby_groups getkey (body t)). }
  intros [k g] r [Hne Hkeys] Hm. unfold f0 in Hm. simpl in *.
  destruct g as [|x g]; [exfalso; apply Hne; reflexivity|].
  inversion Hkeys as [|? ? Hx _]; subst k.
  assert (Hrow : exists outrow aggvals,
             r = outrow ++ aggvals /\
             List.length aggvals = List.length aggregation /\
             List.length outrow
             = List.length match key with
                           | KeyFields fs => fs
                           | KeyCallable _ => ["key"]
                           | KeyField f => [f]
                           end).
  { destruct key as [f|fs|gk].
    - simpl in Hm.
      destruct (mapM _ norm) as [av|e] eqn:Ha; simpl in Hm; [|discriminate].
      injection Hm as <-. exists [getkey x], av. split; [reflexivity|].
      split; [|reflexivity]. apply mapM_Forall2 in Ha.
      rewrite <- (Forall2_length Ha), <- (length_map fst norm),
        (normalise_names _ _ Hn), length_map. reflexivity.
    - destruct (keygetter_cells _ _ _ _ Hk eq_refl) as [kidx [Hkidx Hkc]].
      simpl in Hkc. rewrite Hkc in Hm. simpl in Hm.
      destruct (mapM _ norm) as [av|e] eqn:Ha; simpl in Hm; [|discriminate].
      injection Hm as <-. exists (map (getitem x) kidx), av.
      split; [reflexivity|]. apply mapM_Forall2 in Ha, Hkidx. split.
      + rewrite <- (Forall2_length Ha), <- (length_map fst norm),
          (normalise_names _ _ Hn), length_map. reflexivity.
      + rewrite length_map. symmetry. exact (Forall2_length Hkidx).
    - simpl in Hm.
      destruct (mapM _ norm) as [av|e] eqn:Ha; simpl in Hm; [|discriminate].
      injection Hm as <-. exists [getkey x], av. split; [reflexivity|].
      split; [|reflexivity]. apply mapM_Forall2 in Ha.
      rewrite <- (Forall2_length Ha), <- (length_map fst norm),
        (normalise_names _ _ Hn), length_map. reflexivity. }
  destruct Hrow as [outrow [aggvals [-> [H1 H2]]]].
  rewrite !length_app, length_map, H1, H2. reflexivity.
Qed.

Lemma multiaggregate_rectangular_witness :
  Forall (fun r => List.length r = 3%nat)
         [[VStr "a"; VInt 2; VList [VInt 3; VInt 7]];
          [VStr "b"; VInt 3; VList [VInt 2; VInt 1; VInt 9]];
          [VStr "c"; VInt 1; VList [VInt 4]]].
Proof.
  exact (proj2
           (multiaggregate_rectangular
              (mkMultiAggregateView (Given rowreduce_example_table)
                 (KeyField "foo")
                 [("count", PCallable builtin_len); ("bars", PStr "bar")])
              ["foo"; "count"; "bars"]
              (Stream [[VStr "a"; VInt 2; VList [VInt 3; VInt 7]];
                       [VStr "b"; VInt 3; VList [VInt 2; VInt 1; VInt 9]];
                       [VStr "c"; VInt 1; VList [VInt 4]]] None)
              eq_refl)).
Defined.

(** ** The mapping of a multiple aggregation *)

Lemma od_get_set_same (d : odict) (k : string) (v : pyobj) :
  od_get (od_set d k v) k = Some v.
Proof.
  induction d as [|[k' v'] d IH]; simpl.
  - unfold streq. rewrite String.eqb_refl. reflexivity.
  - destruct (streq k' k) eqn:E; simpl; rewrite E; [reflexivity|exact IH].
Qed.

Lemma od_get_set_other (d : odict) (k k' : string) (v : pyobj) :
  k' <> k -> od_get (od_set d k v) k' = od_get d k'.
Proof.
  intros N. induction d as [|[k0 v0] d IH]; simpl.
  - unfold streq. destruct (String.eqb_spec k k'); [congruence|reflexivity].
  - destruct (streq k0 k) eqn:E; simpl.
    + unfold streq in *. apply String.eqb_eq in E. subst k0.
      destruct (String.eqb_spec k k'); [congruence|reflexivity].
    + rewrite IH. reflexivity.
Qed.

Lemma od_set_names (d : odict) (k : string) (v : pyobj) :
  map fst (od_set d k v)
  = if contains (map fst d) k then map fst d else map fst d ++ [k].
Proof.
  induction d as [|[k' v'] d IH]; simpl; [reflexivity|].
  unfold contains in *. simpl. unfold streq in *.
  rewrite (String.eqb_sym k k').
  destruct (String.eqb k' k) eqn:E; simpl; [reflexivity|].
  rewrite IH.
  destruct (existsb (fun b => String.eqb k b) (map fst d)); reflexivity.
Qed.

Lemma od_set_NoDup (d : odict) (k : string) (v : pyobj) :
  NoDup (map fst d) -> NoDup (map fst (od_set d k v)).
Proof.
  intros H. rewrite od_set_names.
  destruct (contains (map fst d) k) eqn:E; [exact H|].
  apply NoDup_app; [exact H|repeat constructor; simpl; tauto|].
  intros x Hx [<-|[]]. apply contains_In in Hx. congruence.
Qed.

Lemma od_set_In (d : odict) (k x : string) (v : pyobj) :
  In x (map fst (od_set d k v)) <-> x = k \/ In x (map fst d).
Proof.
  rewrite od_set_names. destruct (contains (map fst d) k) eqn:E.
  - apply contains_In in E. split; [auto|]. intros [->|H]; assumption.
  - rewrite in_app_iff. simpl. intuition.
Qed.

Lemma collect_descriptors_spec (ts : list pyobj) :
  forall d d',
    collect_descriptors d ts = Ok d' ->
    (NoDup (map fst d) -> NoDup (map fst d')) /\
    (forall name,
        In name (map fst d') <->
        In name (map fst d) \/
        exists t, In t ts /\ first_item t = Ok (PStr name)) /\
    (forall name,
        (forall t, In t ts -> first_item t <> Ok (PStr name)) ->
        od_get d' name = od_get d name).
Proof.
  induction ts as [|t ts IH]; simpl; intros d d' H.
  - injection H as <-. split; [auto|]. split; [|reflexivity].
    intros name. split; [auto|]. intros [H|[t [[] _]]]. exact H.
  - destruct (rest_items t) as [agg|e]; simpl in H; [|discriminate].
    destruct (first_item t) as [[|z|outfld|c|l1|l2|dd]|e] eqn:Hf;
      simpl in H; try discriminate.
    destruct (IH _ _ H) as [H1 [H2 H3]]. split; [|split].
    + intros Hnd. apply H1. apply od_set_NoDup. exact Hnd.
    + intros name. rewrite H2, od_set_In. split.
      * intros [[->|Hd]|[t' [Ht' Hn]]]; eauto.
      * intros [Hd|[t' [[<-|Ht'] Hn]]]; eauto.
        rewrite Hf in Hn. injection Hn as <-. auto.
    + intros name Hno. rewrite H3.
      * apply od_get_set_other. intros ->. apply (Hno t); auto.
      * intros t' Ht'. apply Hno. auto.
Qed.

Lemma collect_descriptors_app (ts1 ts2 : list pyobj) :
  forall d d',
    collect_descriptors d (ts1 ++ ts2) = Ok d' ->
    exists d1, collect_descriptors d ts1 = Ok d1 /\
               collect_descriptors d1 ts2 = Ok d'.
Proof.
  induction ts1 as [|t ts1 IH]; simpl; intros d d' H; [eauto|].
  destruct (rest_items t) as [agg|e]; simpl in *; [|discriminate].
  destruct (first_item t) as [[|z|outfld|c|l1|l2|dd]|e]; simpl in *;
    try discriminate.
  exact (IH _ _ H).
Qed.

(** X11: an aggregation given as a list or tuple of (name, descriptor...)
    tuples becomes a mapping in which every name occurs once, the names
    being those of the tuples; where a name is given several times, the
    mapping holds for it what follows the name in the last tuple that
    gives it. *)
Theorem multiaggregate_from_list :
  forall (tbl : table) (key : keyspec) (aggregation : pyobj)
         (ts : list pyobj) (presorted : bool) (v : MultiAggregateView),
    aggregation = PList ts \/ aggregation = PTuple ts ->
    MultiAggregateView_init tbl key aggregation presorted = Ok v ->
    NoDup (map fst (ma_aggregation v)) /\
    (forall name,
        In name (map fst (ma_aggregation v)) <->
        exists t, In t ts /\ first_item t = Ok (PStr name)) /\
    (forall ts1 t ts2 name agg,
        ts = ts1 ++ t :: ts2 ->
        first_item t = Ok (PStr name) -> rest_items t = Ok agg ->
        (forall t', In t' ts2 -> first_item t' <> Ok (PStr name)) ->
        od_get (ma_aggregation v) name = Some agg).
Proof.
  intros tbl key aggregation ts presorted v Hshape H.
  assert (Hc : collect_descriptors [] ts = Ok (ma_aggregation v)).
  { destruct Hshape as [-> | ->]; simpl in H;
      destruct (collect_descriptors [] ts) as [d|e]; simpl in H;
      try discriminate; injection H as <-; reflexivity. }
  clear H. destruct (collect_descriptors_spec ts _ _ Hc) as [H1 [H2 _]].
  split; [apply H1; constructor|]. split.
  - intros name. rewrite H2. simpl. tauto.
  - intros ts1 t ts2 name agg -> Hf Hr Hno.
    destruct (collect_descriptors_app ts1 (t :: ts2) _ _ Hc)
      as [d1 [_ Hrest]].
    simpl in Hrest. rewrite Hr, Hf in Hrest. simpl in Hrest.
    destruct (collect_descriptors_spec ts2 _ _ Hrest) as [_ [_ H3]].
    rewrite (H3 name Hno). apply od_get_set_same.
Qed.

Lemma multiaggregate_from_list_witness :
  NoDup ["n"; "m"] /\
  od_get [("n", PTuple [PCallable builtin_len]);
          ("m", PTuple [PCallable builtin_len])] "n"
  = Some (PTuple [PCallable builtin_len]).
Proof.
  destruct (multiaggregate_from_list fold_example_table (KeyField "id")
              (PList [PTuple [PStr "n"; PStr "count"];
                      PTuple [PStr "m"; PCallable builtin_len];
                      PTuple [PStr "n"; PCallable builtin_len]])
              [PTuple [PStr "n"; PStr "count"];
               PTuple [PStr "m"; PCallable builtin_len];
               PTuple [PStr "n"; PCallable builtin_len]]
              false
              (mkMultiAggregateView
                 (SortView fold_example_table (KeyField "id"))
                 (KeyField "id")
                 [("n", PTuple [PCallable builtin_len]);
                  ("m", PTuple [PCallable builtin_len])])
              (or_introl eq_refl) eq_refl) as [H1 [_ H3]].
  split; [exact H1|].
  apply (H3 [PTuple [PStr "n"; PStr "count"];
             PTuple [PStr "m"; PCallable builtin_len]]
            (PTuple [PStr "n"; PCallable builtin_len]) [] "n");
    try reflexivity.
  intros t' [].
Defined.

Lemma normalise_od_set (d norm : odict) (k : string) (agg a : pyobj) :
  mapM (fun e => a0 <- normalise (snd e) ;; Ok (fst e, a0)) d = Ok norm ->
  normalise agg = Ok a ->
  exists norm',
    mapM (fun e => a0 <- normalise (snd e) ;; Ok (fst e, a0))
         (od_set d k agg) = Ok norm'.
Proof.
  intros Hd Ha. revert norm Hd.
  induction d as [|[k' v'] d IH]; simpl; intros norm Hd.
  - rewrite Ha. simpl. eauto.
  - destruct (normalise v') as [a'|e] eqn:Hv; simpl in Hd; [|discriminate].
    destruct (mapM (fun e => a0 <- normalise (snd e) ;; Ok (fst e, a0)) d)
      as [n|e] eqn:Hm; simpl in Hd; [|discriminate].
    destruct (streq k' k); simpl.
    + rewrite Ha, Hm. simpl. eauto.
    + rewrite Hv. simpl. destruct (IH n eq_refl) as [n' ->]. simpl. eauto.
Qed.

(** X12: setting an entry of the mapping of a multiple aggregation after
    the view is built takes effect when the view is next iterated: with
    a descriptor that normalises, a new output name is added at the end
    of the header, and the header is unchanged when the name was there
    already. *)
Theorem multiaggregate_setitem :
  forall (v : MultiAggregateView) (k : string) (agg a : pyobj)
         (hdr : list string) (s : stream row),
    MultiAggregateView_iter v = Emit hdr s ->
    normalise agg = Ok a ->
    exists s',
      MultiAggregateView_iter (MultiAggregateView_setitem v k agg)
      = Emit (if contains (map fst (ma_aggregation v)) k
              then hdr else hdr ++ [k]) s'.
Proof.
  intros [src key d] k agg a hdr s H Ha.
  unfold MultiAggregateView_iter, MultiAggregateView_setitem in *.
  simpl in *.
  destruct (itermultiaggregate_emit _ _ _ _ _ H) as [t [norm [Hs Hn]]].
  rewrite (itermultiaggregate_unfold _ _ _ _ _ Hs Hn) in H.
  injection H as <- _.
  destruct (normalise_od_set d norm k agg a Hn Ha) as [norm' Hn'].
  rewrite (itermultiaggregate_unfold _ _ _ _ _ Hs Hn').
  rewrite (normalise_names _ _ Hn), (normalise_names _ _ Hn'),
    od_set_names.
  destruct (contains (map fst d) k); [eauto|].
  rewrite app_assoc. eauto.
Qed.

Lemma multiaggregate_setitem_witness :
  exists s',
    MultiAggregateView_iter
      (MultiAggregateView_setitem
         (mkMultiAggregateView (Given rowreduce_example_table)
            (KeyField "foo") [("count", PCallable builtin_len)])
         "bars" (PStr "bar"))
    = Emit ["foo"; "count"; "bars"] s'.
Proof.
  exact (multiaggregate_setitem
           (mkMultiAggregateView (Given rowreduce_example_table)
              (KeyField "foo") [("count", PCallable builtin_len)])
           "bars" (PStr "bar") _ ["foo"; "count"] _ eq_refl eq_refl).
Defined.

Lemma iter_source_nonempty (presorted : bool) (tbl : table)
    (key : keyspec) (getkey : row -> value) :
  keygetter (header tbl) key = Ok getkey ->
  body tbl <> [] ->
  exists x l,
    iter_source (sorted_unless presorted tbl key)
    = Ok (Table (header tbl) (x :: l)).
Proof.
  intros Hk Hne. destruct presorted; simpl.
  - destruct tbl as [h [|x l]]; simpl in *; [congruence|eauto].
  - unfold sort. rewrite Hk. simpl.
    destruct (sort_rows getkey (body tbl)) as [|x l] eqn:E; [|eauto].
    exfalso. apply Hne. apply Permutation_nil.
    rewrite <- E. apply sort_rows_perm.
Qed.

(** X13: in a multiple aggregation, [len] paired with a source field
    does not count: it is handed a generator, so on a table with at
    least one row the view yields its header and then raises a
    TypeError before any row; [len] alone, handed the list of rows,
    counts (see X9). *)
Theorem multiaggregate_len_of_field :
  forall (tbl : table) (key : keyspec) (vspec : valspec) (presorted : bool)
         (name fld : string) (i : nat) (getkey : row -> value),
    keygetter (header tbl) key = Ok getkey ->
    index (header tbl) fld = Ok i ->
    body tbl <> [] ->
    exists v,
      aggregate tbl key
        (PDict [(name, PTuple [PStr fld; PCallable builtin_len])])
        vspec presorted = Ok v /\
      AggregateView_iter v
      = Emit (match key with
              | KeyFields fs => fs
              | KeyCallable _ => ["key"]
              | KeyField f => [f]
              end ++ [name])
          (Stream [] (Some TypeError)).
Proof.
  intros tbl key vspec presorted name fld i getkey Hk Hi Hne.
  eexists. split; [reflexivity|].
  unfold AggregateView_iter, MultiAggregateView_iter.
  cbn [ma_source ma_key ma_aggregation].
  destruct (iter_source_nonempty presorted tbl key getkey Hk Hne)
    as [x [l Hs]].
  rewrite (itermultiaggregate_unfold _ key
             [(name, PTuple [PStr fld; PCallable builtin_len])]
             [(name, PTuple [PStr fld; PCallable builtin_len])] _ Hs
             eq_refl).
  cbn [map fst]. f_equal.
  rewrite (rowgroupby_whole_rows (Table (header tbl) (x :: l)) key getkey
             Hk).
  cbn [body yield_from]. rewrite yield_each_map.
  destruct (groupby_head getkey x l) as [g [rest ->]].
  cbn [yield_each fst snd header].
  assert (Ho : exists outrow,
             match key with
             | KeyFields _ => py_list (getkey x)
             | _ => Ok [getkey x]
             end = Ok outrow).
  { destruct key as [f|fs|gk]; eauto.
    destruct (keygetter_cells _ _ _ _ Hk eq_refl) as [kidx [_ Hkc]].
    simpl in Hkc. rewrite Hkc. eauto. }
  destruct Ho as [outrow ->].
  unfold aggregate_field. simpl. rewrite Hi. reflexivity.
Qed.

Lemma multiaggregate_len_of_field_witness :
  exists v,
    aggregate rowreduce_example_table (KeyField "foo")
      (PDict [("n", PTuple [PStr "bar"; PCallable builtin_len])])
      WholeRow false = Ok v /\
    AggregateView_iter v = Emit ["foo"; "n"] (Stream [] (Some TypeError)).
Proof.
  refine (multiaggregate_len_of_field rowreduce_example_table
            (KeyField "foo") WholeRow false "n" "bar" 1
            (fun r => getitem r 0) eq_refl eq_refl _).
  discriminate.
Defined.

Lemma yield_each_pure {A B : Type} (f : A -> result B) (g : A -> B)
    (l : list A) :
  (forall x, In x l -> f x = Ok (g x)) ->
  yield_each f l = Stream (map g l) None.
Proof.
  induction l as [|x l IH]; simpl; intros H; [reflexivity|].
  rewrite (H x (or_introl eq_refl)), IH; [reflexivity|].
  intros y Hy. apply H. right. exact Hy.
Qed.

(** A compound key is extracted as a tuple. *)
Lemma compound_key_tuple (hdr fs : list string) (getkey : row -> value) :
  keygetter hdr (KeyFields fs) = Ok getkey ->
  forall r, py_list (getkey r) = Ok (cells (getkey r)).
Proof.
  simpl. destruct (mapM (field_index hdr) fs) as [idxs|e]; simpl;
    [|discriminate].
  intros E r. injection E as <-. reflexivity.
Qed.

(** X14: with no aggregation at all, [aggregate(table, key)] lists the
    distinct key values of the table: its header is the key field(s) and
    it yields one row per distinct key value, holding the key cell(s)
    only. *)
Theorem aggregate_without_aggregation :
  forall (tbl : table) (key : keyspec) (vspec : valspec)
         (getkey : row -> value),
    keygetter (header tbl) key = Ok getkey ->
    exists v (keys : list value),
      aggregate tbl key PNone vspec false = Ok v /\
      AggregateView_iter v
      = Emit match key with
             | KeyFields fs => fs
             | KeyCallable _ => ["key"]
             | KeyField f => [f]
             end
          (Stream
             (map (fun k => match key with
                            | KeyFields _ => cells k
                            | _ => [k]
                            end) keys)
             None) /\
      NoDup keys /\
      (forall k, In k keys <-> exists r, In r (body tbl) /\ getkey r = k).
Proof.
  intros tbl key vspec getkey Hk.
  set (sorted := sort_rows getkey (body tbl)).
  set (groups := groupby getkey sorted).
  eexists. exists (map fst groups). split; [reflexivity|].
  pose proof (sort_rows_sorted getkey (body tbl)) as Hsorted.
  fold sorted in Hsorted.
  split; [|split].
  - unfold AggregateView_iter, MultiAggregateView_iter.
    cbn [ma_source ma_key ma_aggregation sorted_unless].
    assert (Hs : iter_source (SortView tbl key)
                 = Ok (Table (header tbl) sorted)).
    { simpl. unfold sort. rewrite Hk. reflexivity. }
    rewrite (itermultiaggregate_unfold _ key [] [] _ Hs eq_refl).
    cbn [map]. rewrite app_nil_r. f_equal.
    rewrite (rowgroupby_whole_rows (Table (header tbl) sorted) key getkey
               Hk).
    cbn [body yield_from]. fold groups. rewrite yield_each_map, map_map.
    apply yield_each_pure. intros [k g] Hkg. cbn [fst snd mapM bind].
    destruct key as [f|fs|gk]; cbn [bind]; try (rewrite app_nil_r);
      try reflexivity.
    pose proof (groupby_groups getkey sorted) as Hg. fold groups in Hg.
    rewrite Forall_forall in Hg. destruct (Hg _ Hkg) as [Hne Hkeys].
    simpl in *. destruct g as [|x g]; [exfalso; apply Hne; reflexivity|].
    inversion Hkeys as [|? ? Hx _]; subst k.
    rewrite (compound_key_tuple _ _ _ Hk x). simpl.
    rewrite app_nil_r. reflexivity.
  - apply vlt_sorted_NoDup, groupby_sorted_keys. exact Hsorted.
  - intros k. unfold groups. rewrite groupby_keys_In, in_map_iff.
    split; intros [r [H1 H2]].
    + exists r. split; [|exact H1]. apply (sort_rows_In getkey). exact H2.
    + exists r. split; [exact H2|]. apply (sort_rows_In getkey). exact H1.
Qed.

Lemma aggregate_without_aggregation_witness :
  exists v (keys : list value),
    aggregate rowreduce_example_table (KeyField "foo") PNone WholeRow false
    = Ok v /\
    AggregateView_iter v
    = Emit ["foo"] (Stream (map (fun k => [k]) keys) None) /\
    NoDup keys.
Proof.
  destruct (aggregate_without_aggregation rowreduce_example_table
              (KeyField "foo") WholeRow (fun r => getitem r 0) eq_refl)
    as [v [keys [H1 [H2 [H3 _]]]]].
  exists v, keys. split; [exact H1|]. split; [exact H2|exact H3].
Defined.

(** ** Keys that do not resolve, tables without rows *)

Lemma iter_source_unresolved (tbl : table) (key : keyspec) (e : exn) :
  keygetter (header tbl) key = Raise e ->
  iter_source (SortView tbl key) = Raise e.
Proof. intros H. simpl. unfold sort. rewrite H. reflexivity. Qed.

Lemma rowgroupby_source_unresolved (presorted : bool) (tbl : table)
    (key : keyspec) (vspec : valspec) (e : exn) :
  keygetter (header tbl) key = Raise e ->
  rowgroupby_source (sorted_unless presorted tbl key) key vspec = Raise e.
Proof.
  intros H. unfold rowgroupby_source. destruct presorted; simpl.
  - unfold rowgroupby. rewrite H. reflexivity.
  - unfold sort. rewrite H. reflexivity.
Qed.

(** X15: when the key does not resolve against the header of the table
    (a key field is not a header field), no view yields a data row and
    each raises the field selection error when it is iterated: the simple
    aggregate and fold views after yielding their header, the other views
    before or after theirs. *)
Theorem unresolved_key_raises :
  forall (tbl : table) (key : keyspec) (e : exn) (presorted : bool),
    keygetter (header tbl) key = Raise e ->
    (forall reducer fields,
        fails_without_rows
          (RowReduceView_iter (rowreduce tbl key reducer fields presorted))
          e) /\
    (forall aggregation vspec,
        exists hdr,
          SimpleAggregateView_iter
            (SimpleAggregateView_init tbl key aggregation vspec presorted)
          = Emit hdr (Stream [] (Some e))) /\
    (forall f vspec,
        FoldView_iter (fold tbl key f vspec presorted)
        = Emit ["key"; "value"] (Stream [] (Some e))) /\
    (forall missing,
        fails_without_rows
          (MergeDuplicatesView_iter
             (mergeduplicates tbl key missing presorted)) e) /\
    (forall aggregation norm,
        mapM (fun en => a <- normalise (snd en) ;; Ok (fst en, a))
             aggregation = Ok norm ->
        fails_without_rows
          (MultiAggregateView_iter
             (mkMultiAggregateView (sorted_unless presorted tbl key) key
                aggregation)) e).
Proof.
  intros tbl key e presorted Hk.
  pose proof (fun vspec =>
                rowgroupby_source_unresolved presorted tbl key vspec e Hk)
    as Hg.
  pose proof (iter_source_unresolved tbl key e Hk) as Hs.
  split; [|split; [|split; [|split]]].
  - intros reducer fields.
    unfold RowReduceView_iter, rowreduce, RowReduceView_init,
      iterrowreduce. cbn [rr_source rr_key rr_reducer rr_fields].
    destruct fields as [flds|].
    + right. exists flds. rewrite Hg. reflexivity.
    + unfold iterpeek. destruct presorted.
      * right. exists (header tbl). simpl. unfold rowgroupby_source.
        simpl. unfold rowgroupby. rewrite Hk. reflexivity.
      * left. cbn [sorted_unless]. rewrite Hs. reflexivity.
  - intros aggregation vspec.
    unfold SimpleAggregateView_iter, SimpleAggregateView_init,
      itersimpleaggregate. cbn [sa_table sa_key sa_aggregation sa_value].
    rewrite Hg. destruct key; eexists; reflexivity.
  - intros f vspec. unfold FoldView_iter, fold, FoldView_init, iterfold.
    cbn [fv_table fv_key fv_f fv_value]. rewrite Hg. reflexivity.
  - intros missing.
    unfold MergeDuplicatesView_iter, mergeduplicates,
      MergeDuplicatesView_init, itermergeduplicates, iterpeek.
    cbn [md_table md_key md_missing]. destruct presorted.
    + right. simpl.
      assert (Hf : exists kf, key_fields key = Ok kf).
      { destruct key; simpl in *; eauto. discriminate. }
      destruct Hf as [kf ->].
      destruct (valfld_indexes (header tbl) kf) as [idxs ->].
      eexists. f_equal. unfold rowgroupby_source. simpl.
      unfold rowgroupby. rewrite Hk. reflexivity.
    + left. cbn [sorted_unless]. rewrite Hs. reflexivity.
  - intros aggregation norm Hn. unfold MultiAggregateView_iter.
    cbn [ma_source ma_key ma_aggregation].
    destruct presorted; cbn [sorted_unless].
    + right. rewrite (itermultiaggregate_unfold (Given tbl) key aggregation
                        norm tbl eq_refl Hn).
      eexists. f_equal. unfold rowgroupby. rewrite Hk. reflexivity.
    + left. unfold itermultiaggregate. rewrite Hs. reflexivity.
Qed.

Lemma unresolved_key_raises_witness :
  FoldView_iter
    (fold fold_example_table (KeyField "foo") operator_add WholeRow false)
  = Emit ["key"; "value"] (Stream [] (Some (FieldSelectionError "foo"))).
Proof.
  destruct (unresolved_key_raises fold_example_table (KeyField "foo")
              (FieldSelectionError "foo") false eq_refl)
    as [_ [_ [H _]]].
  exact (H operator_add WholeRow).
Defined.

Lemma sorted_unless_empty (presorted : bool) (tbl : table) (key : keyspec)
    (getkey : row -> value) :
  keygetter (header tbl) key = Ok getkey ->
  body tbl = [] ->
  iter_source (sorted_unless presorted tbl key)
  = Ok (Table (header tbl) []).
Proof.
  intros Hk Hb. destruct presorted; simpl.
  - destruct tbl as [h b]. simpl in *. subst b. reflexivity.
  - unfold sort. rewrite Hk, Hb. reflexivity.
Qed.

(** X16: on a table without data rows whose key resolves, every view
    yields its header and nothing else, without an exception (for the
    views with a value field, when that resolves too; for the multiple
    aggregation, when its descriptors normalise; for [mergeduplicates],
    with a key that is not a callable). *)
Theorem empty_table_header_only :
  forall (tbl : table) (key : keyspec) (presorted : bool)
         (getkey : row -> value),
    keygetter (header tbl) key = Ok getkey ->
    body tbl = [] ->
    (forall reducer fields,
        yields_header_only
          (RowReduceView_iter
             (rowreduce tbl key reducer fields presorted))) /\
    (forall aggregation vspec getval,
        valgetter (header tbl) vspec = Ok getval ->
        yields_header_only
          (SimpleAggregateView_iter
             (SimpleAggregateView_init tbl key aggregation vspec
                presorted))) /\
    (forall f vspec getval,
        valgetter (header tbl) vspec = Ok getval ->
        yields_header_only (FoldView_iter (fold tbl key f vspec presorted)))
    /\
    (forall missing kf,
        key_fields key = Ok kf ->
        yields_header_only
          (MergeDuplicatesView_iter
             (mergeduplicates tbl key missing presorted))) /\
    (forall aggregation norm,
        mapM (fun en => a <- normalise (snd en) ;; Ok (fst en, a))
             aggregation = Ok norm ->
        yields_header_only
          (MultiAggregateView_iter
             (mkMultiAggregateView (sorted_unless presorted tbl key) key
                aggregation))).
Proof.
  intros tbl key presorted getkey Hk Hb.
  pose proof (sorted_unless_empty presorted tbl key getkey Hk Hb) as Hs.
  assert (Hg : forall vspec getval,
             valgetter (header tbl) vspec = Ok getval ->
             rowgroupby_source (sorted_unless presorted tbl key) key vspec
             = Ok []).
  { intros vspec getval Hv. unfold rowgroupby_source, rowgroupby.
    rewrite Hs. simpl. rewrite Hk, Hv. reflexivity. }
  unfold yields_header_only.
  split; [|split; [|split; [|split]]].
  - intros reducer fields.
    unfold RowReduceView_iter, rowreduce, RowReduceView_init,
      iterrowreduce. cbn [rr_source rr_key rr_reducer rr_fields].
    destruct fields as [flds|].
    + exists flds. rewrite (Hg WholeRow _ eq_refl). reflexivity.
    + unfold iterpeek. rewrite Hs. simpl. exists (header tbl).
      unfold rowgroupby_source, rowgroupby. simpl. rewrite Hk.
      reflexivity.
  - intros aggregation vspec getval Hv.
    unfold SimpleAggregateView_iter, SimpleAggregateView_init,
      itersimpleaggregate. cbn [sa_table sa_key sa_aggregation sa_value].
    rewrite (Hg vspec getval Hv). destruct key; eexists; reflexivity.
  - intros f vspec getval Hv.
    unfold FoldView_iter, fold, FoldView_init, iterfold.
    cbn [fv_table fv_key fv_f fv_value]. rewrite (Hg vspec getval Hv).
    eexists. reflexivity.
  - intros missing kf Hf. destruct (valfld_indexes (header tbl) kf)
      as [idxs Hi].
    unfold MergeDuplicatesView_iter, mergeduplicates,
      MergeDuplicatesView_init. cbn [md_table md_key md_missing].
    rewrite (itermergeduplicates_unfold _ (Table (header tbl) []) key
               missing getkey kf idxs Hs Hk Hf Hi).
    eexists. reflexivity.
  - intros aggregation norm Hn. unfold MultiAggregateView_iter.
    cbn [ma_source ma_key ma_aggregation].
    rewrite (itermultiaggregate_unfold _ key aggregation norm _ Hs Hn).
    unfold rowgroupby. simpl. rewrite Hk. eexists. reflexivity.
Qed.

Lemma empty_table_header_only_witness :
  yields_header_only
    (MergeDuplicatesView_iter
       (mergeduplicates (Table ["foo"; "bar"] []) (KeyField "foo") VNone
          false)).
Proof.
  destruct (empty_table_header_only (Table ["foo"; "bar"] [])
              (KeyField "foo") false (fun r => getitem r 0) eq_refl eq_refl)
    as [_ [_ [_ [H _]]]].
  exact (H VNone ["foo"] eq_refl).
Defined.

(** ** fold and aggregate *)

Lemma yield_each_related {A B : Type} (R : B -> B -> Prop)
    (f1 f2 : A -> result B) (l : list A) :
  (forall x, In x l ->
     (exists a b, f1 x = Ok a /\ f2 x = Ok b /\ R a b) \/
     (exists e, f1 x = Raise e /\ f2 x = Raise e)) ->
  raised (yield_each f1 l) = raised (yield_each f2 l) /\
  Forall2 R (yielded (yield_each f1 l)) (yielded (yield_each f2 l)).
Proof.
  induction l as [|x l IH]; simpl; intros H.
  - split; [reflexivity|constructor].
  - destruct IH as [IH1 IH2].
    { intros y Hy. apply H. right. exact Hy. }
    destruct (H x (or_introl eq_refl))
      as [[a [b [-> [-> Hab]]]]|[e [-> ->]]]; simpl.
    + split; [exact IH1|]. constructor; assumption.
    + split; [reflexivity|constructor].
Qed.

Lemma rowgroupby_source_keys (src : source) (key : keyspec)
    (vspec : valspec) (groups : list (value * list value)) :
  rowgroupby_source src key vspec = Ok groups ->
  exists t getkey,
    iter_source src = Ok t /\
    keygetter (header t) key = Ok getkey /\
    forall kg, In kg groups -> exists x, fst kg = getkey x.
Proof.
  unfold rowgroupby_source, rowgroupby.
  destruct (iter_source src) as [t|e]; simpl; [|discriminate].
  destruct (keygetter (header t) key) as [gk|e] eqn:Hk; simpl;
    [|discriminate].
  destruct (valgetter (header t) vspec) as [gv|e]; simpl; [|discriminate].
  intros E. injection E as <-. exists t, gk.
  split; [reflexivity|]. split; [exact Hk|].
  intros kg Hkg. apply in_map_iff in Hkg. destruct Hkg as [[k g] [<- Hin]].
  simpl. pose proof (groupby_groups gk (body t)) as Hg.
  rewrite Forall_forall in Hg. destruct (Hg _ Hin) as [Hne Hkeys].
  simpl in *. destruct g as [|x g]; [exfalso; apply Hne; reflexivity|].
  inversion Hkeys; subst. eauto.
Qed.

(** X17: [fold(table, key, f, value)] yields what
    [aggregate(table, key, lambda g: reduce(f, g), value)] yields, row
    for row and with the same exception if any, but for the key: [fold]
    names its key column 'key' and keeps a compound key as one cell,
    where [aggregate] spreads it over one cell per key field. *)
Theorem fold_as_aggregate :
  forall (src : source) (key : keyspec) (f : binary_fn) (vspec : valspec),
    exists s1 s2 hdr,
      iterfold src key f vspec = Emit ["key"; "value"] s1 /\
      itersimpleaggregate src key
        (Lambda (fun g => reduce f (contents g))) vspec = Emit hdr s2 /\
      raised s1 = raised s2 /\
      Forall2
        (fun r1 r2 =>
           exists k v,
             r1 = [k; v] /\
             r2 = match key with
                  | KeyFields _ => cells k ++ [v]
                  | _ => [k; v]
                  end)
        (yielded s1) (yielded s2).
Proof.
  intros src key f vspec.
  unfold iterfold, itersimpleaggregate. cbn [is_len].
  eexists. eexists. eexists.
  split; [reflexivity|]. split; [reflexivity|].
  destruct (rowgroupby_source src key vspec) as [groups|e] eqn:Hg.
  2:{ destruct key; simpl; split; constructor. }
  destruct (rowgroupby_source_keys _ _ _ _ Hg) as [t [gk [_ [Hk Hkeys]]]].
  destruct key as [fld|fs|g]; cbn [yield_from];
    apply yield_each_related; intros kg Hkg; simpl;
    try (destruct (Hkeys kg Hkg) as [x ->];
         rewrite (compound_key_tuple _ _ _ Hk x); simpl);
    (destruct (reduce f (snd kg)) as [v|e]; simpl;
     [left; do 2 eexists; split; [reflexivity|]; split; [reflexivity|];
      do 2 eexists; split; reflexivity
     |right; eexists; split; reflexivity]).
Qed.

(** ** Keys of the merged table *)

(** X18: after [mergeduplicates] (not presorted) has run to completion,
    every key value of the table is in exactly one row of the output:
    read under the output's header, the keys of the yielded rows are
    pairwise different and are the key values of the table. *)
Theorem mergeduplicates_keys_unique :
  forall (tbl : table) (key : keyspec) (missing : value)
         (hdr : list string) (rows : list row) (getkey : row -> value),
    keygetter (header tbl) key = Ok getkey ->
    MergeDuplicatesView_iter (mergeduplicates tbl key missing false)
    = Emit hdr (Stream rows None) ->
    exists getkey1,
      keygetter hdr key = Ok getkey1 /\
      NoDup (map getkey1 rows) /\
      (forall k, In k (map getkey1 rows) <->
                 exists r, In r (body tbl) /\ getkey r = k).
Proof.
  intros tbl key missing hdr rows getkey Hk0 H.
  unfold MergeDuplicatesView_iter, mergeduplicates,
    MergeDuplicatesView_init in H. simpl in H.
  destruct (itermergeduplicates_inv _ _ _ _ _ H)
    as [t [gk [kf [idxs [Hs [Hk [Hf [Hi [Hh HF]]]]]]]]].
  simpl in Hs. unfold sort in Hs. rewrite Hk0 in Hs. simpl in Hs.
  injection Hs as <-. simpl in *. rewrite Hk0 in Hk. injection Hk as <-.
  set (vf := filter (fun f => negb (contains kf f)) (header tbl)) in *.
  subst hdr.
  destruct (rekey (header tbl) key getkey kf vf Hk0 Hf) as [gk1 [Hk1 Hgk1]].
  destruct (keygetter_cells _ _ _ _ Hk0 Hf) as [kidx [_ Hkc]].
  exists gk1. split; [exact Hk1|].
  set (sorted := sort_rows getkey (body tbl)) in *.
  assert (Hkeys : map gk1 rows = map fst (groupby getkey sorted)).
  { pose proof (groupby_groups getkey sorted) as Hg.
    clear H. induction HF as [|[k g] r gs rs Hm _ IH]; [reflexivity|].
    inversion Hg as [|? ? [Hne Hks] Hg']; subst. simpl in *.
    rewrite (IH Hg'). f_equal.
    destruct g as [|x g]; [exfalso; apply Hne; reflexivity|].
    inversion Hks as [|? ? Hx _]; subst.
    apply merge_group_spec in Hm. destruct Hm as [kc [cs [H1 [-> _]]]].
    apply Hgk1. exact H1. }
  rewrite Hkeys. split.
  - apply vlt_sorted_NoDup, groupby_sorted_keys, sort_rows_sorted.
  - intros k. rewrite groupby_keys_In, in_map_iff.
    split; intros [r [H1 H2]].
    + exists r. split; [|exact H1]. apply (sort_rows_In getkey). exact H2.
    + exists r. split; [exact H2|]. apply (sort_rows_In getkey). exact H1.
Qed.

Lemma mergeduplicates_keys_unique_witness :
  exists getkey1,
    keygetter ["foo"; "bar"; "baz"] (KeyField "foo") = Ok getkey1 /\
    NoDup (map getkey1 (body merge_example_output)).
Proof.
  destruct (mergeduplicates_keys_unique merge_example_table
              (KeyField "foo") VNone ["foo"; "bar"; "baz"]
              (body merge_example_output) (fun r => getitem r 0)
              eq_refl eq_refl) as [gk1 [H1 [H2 _]]].
  exists gk1. split; assumption.
Defined.

(** ** Counting with the simple aggregate view *)


